(** * quick::variant (include/quick/experiments/variant.hpp)

    A shallow embedding of the single-slot variant container and of the
    type list it is indexed by, followed by the properties of its
    operations.

    - the type list [TypeListImpl] / [GetNthType] is modelled as the chain of
      base classes the source builds, template argument deduction as a
      search in that chain, and the alias as the type of the call that
      returns the deduced type by value;
    - the variant is the record of its two private members, [ptr] (a
      [std::unique_ptr] to a type-erased cell) and [selected_type_];
    - member functions run in a small state-and-exception monad whose state
      also records, in order, every payload construction and destruction. *)

From Stdlib Require Import Ascii NArith.
From stdpp Require Import base option list strings.

Set Default Proof Using "Type".

(** ** Compile-time part: namespace variant_impl *)

Module variant_impl.
Section TypeList.
Context {Ty : Type}.

(** The type of a call to a function declared to return [T] by value, as
    [decltype] gives it.  [None]: no function can be declared with that
    return type (an array or a function type), and naming the call is
    ill-formed.  Otherwise the call has type [T], but for the top-level
    cv-qualifiers of a [T] that is neither a class nor an array, which a
    prvalue does not keep.  This is a rule of the language; the type list is
    parametric in it. *)
Variable decltype_call : Ty → option Ty.

(** [TypeListImpl<i, T, Ts...>] derives from [TypeListImpl<i+1, Ts...>], and
    [TypeListImpl<i>] is an empty struct.  An object of the class is viewed
    as the list of its (direct and indirect) bases of the shape
    [TypeListImpl<i, T, ...>], each given by its index and head type; the
    empty specialisation has no head type and contributes nothing. *)
Fixpoint TypeListImpl (i : nat) (Ts : list Ty) : list (nat * Ty) :=
  match Ts with
  | [] => []
  | T :: Ts' => (i, T) :: TypeListImpl (S i) Ts'
  end.

Definition TypeList (Ts : list Ty) : list (nat * Ty) := TypeListImpl 0 Ts.

(** [GetNthTypeFromTypeListFunc<index>(input)]: [index] is given
    explicitly, [T] is deduced by binding the parameter
    [TypeListImpl<index, T, Ts...>&] to the base of [input] that has this
    index.  The result is the deduced [T], which the function is declared to
    return; [None] is a deduction failure: the call is ill-formed. *)
Fixpoint GetNthTypeFromTypeListFunc (index : nat) (input : list (nat * Ty))
  : option Ty :=
  match input with
  | [] => None
  | (i, T) :: bases =>
      if Nat.eqb i index then Some T
      else GetNthTypeFromTypeListFunc index bases
  end.

(** [GetNthType<index, Ts...>]: [decltype] of the call
    [GetNthTypeFromTypeListFunc<index>(std::declval<TypeList<Ts...>&>())]. *)
Definition GetNthType (index : nat) (Ts : list Ty) : option Ty :=
  T ← GetNthTypeFromTypeListFunc index (TypeList Ts); decltype_call T.

Lemma GetNthTypeFromTypeListFunc_shift (Ts : list Ty) (i index : nat) :
  GetNthTypeFromTypeListFunc index (TypeListImpl i Ts) =
  if decide (i ≤ index) then Ts !! (index - i) else None.
Proof.
  revert i. induction Ts as [|T Ts IH]; intros i; simpl.
  - by case_decide.
  - destruct (Nat.eqb_spec i index) as [->|Hne].
    + rewrite decide_True by lia. by rewrite Nat.sub_diag.
    + rewrite IH. repeat case_decide; try lia; try done.
      replace (index - i) with (S (index - S i)) by lia. done.
Qed.

Lemma GetNthType_lookup (Ts : list Ty) (index : nat) :
  GetNthType index Ts = Ts !! index ≫= decltype_call.
Proof.
  unfold GetNthType, TypeList. rewrite GetNthTypeFromTypeListFunc_shift.
  rewrite decide_True by lia. by rewrite Nat.sub_0_r.
Qed.

Lemma GetNthType_out_of_range (Ts : list Ty) (index : nat) :
  length Ts ≤ index → GetNthType index Ts = None.
Proof.
  intros Hge. rewrite GetNthType_lookup.
  by rewrite (proj2 (lookup_ge_None Ts index) Hge).
Qed.

Lemma GetNthType_is_Some (Ts : list Ty) (index : nat) :
  is_Some (GetNthType index Ts) → index < length Ts.
Proof.
  intros Hs. destruct (decide (index < length Ts)) as [|Hge]; [done|].
  rewrite GetNthType_out_of_range in Hs by lia. by destruct Hs.
Qed.


(** Two positions that name the same type are one position, when the types
    the positions name are distinct. *)
Lemma GetNthType_inj (Ts : list Ty) (i j : nat) (T : Ty) :
  NoDup (omap decltype_call Ts) →
  GetNthType i Ts = Some T → GetNthType j Ts = Some T → i = j.
Proof.
  rewrite !GetNthType_lookup. revert i j.
  induction Ts as [|U Ts IH]; intros i j Hnd Hi Hj; [done|].
  assert (Hin : ∀ k, Ts !! k ≫= decltype_call = Some T →
                     T ∈ omap decltype_call Ts).
  { intros k Hk. destruct (Ts !! k) as [W|] eqn:HW; [|done]. simpl in Hk.
    apply list_elem_of_omap. exists W. split; [|done].
    by apply list_elem_of_lookup_2 in HW. }
  assert (Htl : NoDup (omap decltype_call Ts)).
  { simpl in Hnd. destruct (decltype_call U); [|done].
    by apply NoDup_cons in Hnd as [_ ?]. }
  destruct i as [|i], j as [|j]; simpl in Hi, Hj.
  - done.
  - exfalso. simpl in Hnd. rewrite Hi in Hnd.
    apply NoDup_cons in Hnd as [Hnot _]. apply Hnot. by apply (Hin j).
  - exfalso. simpl in Hnd. rewrite Hj in Hnd.
    apply NoDup_cons in Hnd as [Hnot _]. apply Hnot. by apply (Hin i).
  - f_equal. by apply IH.
Qed.
End TypeList.
End variant_impl.

(** ** Run-time part: struct variant *)

Section Variant.
Context {Ty : Type} `{!EqDecision Ty}.
Context {Obj Args Exn : Type}.

(** The type of a call that returns [T] by value (see
    [variant_impl.GetNthType]). *)
Variable decltype_call : Ty → option Ty.

(** The template parameter pack [Ts...] of [variant<Ts...>]. *)
Variable Ts : list Ty.

(** [new TypeWrapper<T>(args...)], up to the object it yields: the allocation
    followed by the initialisation [object_(args...)].  [inr o] is the payload
    built; [inl e] is the exception raised by the allocator or by the
    constructor of [T], in which case no object comes to life.  [Args] stands
    for everything the outcome depends on, so two calls that behave
    differently are calls at different [Args]. *)
Variable construct : Ty → Args → Exn + Obj.

(** A heap cell owned through [std::unique_ptr<AbstractBaseType>]: its dynamic
    type is [TypeWrapper<T>] for some [T], and it stores the member
    [object_]. *)
Record AbstractBaseType : Type := TypeWrapper {
  dynamic_type : Ty;
  object_ : Obj
}.

(** The private members of [variant]. *)
Record variant : Type := Variant {
  ptr : option AbstractBaseType;
  selected_type_ : nat
}.

(** A default-constructed variant: [ptr] is null and [selected_type_ = 0]. *)
Definition default_variant : variant :=
  {| ptr := None; selected_type_ := 0 |}.

(** Payload lifetime events, in program order. *)
Inductive event : Type :=
| EvConstruct (c : AbstractBaseType)
| EvDestroy (c : AbstractBaseType).

Record machine : Type := Machine {
  self : variant;
  trace : list event
}.

Definition initial : machine := {| self := default_variant; trace := [] |}.

Inductive exn : Type :=
| runtime_error (what : string)
| raised_by_new (e : Exn).

(** What a call does: it returns, it throws (the state is the one at the
    throw), or its behaviour is undefined. *)
Inductive outcome (A : Type) : Type :=
| Returns (a : A) (m : machine)
| Throws (e : exn) (m : machine)
| Undefined.
Arguments Returns {A} a m.
Arguments Throws {A} e m.
Arguments Undefined {A}.

Definition run (A : Type) : Type := machine → outcome A.

Definition ret {A : Type} (a : A) : run A := λ m, Returns a m.

Definition bind {A B : Type} (r : run A) (k : A → run B) : run B :=
  λ m, match r m with
       | Returns a m' => k a m'
       | Throws e m' => Throws e m'
       | Undefined => Undefined
       end.

Notation "x <- c1 ;; c2" := (bind c1 (λ x, c2))
  (at level 100, c1 at next level, right associativity).
Notation "c1 ;; c2" := (bind c1 (λ _, c2))
  (at level 100, right associativity).

Definition throw {A : Type} (e : exn) : run A := λ m, Throws e m.

Definition undefined {A : Type} : run A := λ _, Undefined.

Definition load_ptr : run (option AbstractBaseType) :=
  λ m, Returns (ptr (self m)) m.

Definition store_ptr (p : option AbstractBaseType) : run unit :=
  λ m, Returns tt {| self := {| ptr := p;
                                selected_type_ := selected_type_ (self m) |};
                     trace := trace m |}.

Definition load_selected_type_ : run nat :=
  λ m, Returns (selected_type_ (self m)) m.

Definition store_selected_type_ (i : nat) : run unit :=
  λ m, Returns tt {| self := {| ptr := ptr (self m); selected_type_ := i |};
                     trace := trace m |}.

Definition emit (e : event) : run unit :=
  λ m, Returns tt {| self := self m; trace := trace m ++ [e] |}.

(** [new NthTypeWrapper<index>(args...)]. *)
Definition new_TypeWrapper (T : Ty) (args : Args) : run AbstractBaseType :=
  match construct T args with
  | inr o => emit (EvConstruct (TypeWrapper T o)) ;; ret (TypeWrapper T o)
  | inl e => throw (raised_by_new e)
  end.

(** [std::unique_ptr::reset(p)]: the stored pointer is replaced first, the
    object it pointed to before is deleted afterwards. *)
Definition reset (p : option AbstractBaseType) : run unit :=
  old <- load_ptr ;;
  store_ptr p ;;
  match old with
  | Some c => emit (EvDestroy c)
  | None => ret tt
  end.

(** [static_cast<NthTypeWrapper<index>&>( *ptr).object_]: defined when [ptr]
    is not null and the cell's dynamic type is the wrapper of [T]. *)
Definition static_cast_object_ (T : Ty) : run Obj :=
  p <- load_ptr ;;
  match p with
  | Some c => if decide (dynamic_type c = T) then ret (object_ c) else undefined
  | None => undefined
  end.

Definition is_nullptr (p : option AbstractBaseType) : bool :=
  match p with None => true | Some _ => false end.

(** [NthType<index>]. *)
Definition NthType (index : nat) : option Ty :=
  variant_impl.GetNthType decltype_call index Ts.

(** The body of [at<index>(args...)], with [T] standing for
    [NthType<index>]. *)
Definition at_body (T : Ty) (index : nat) (args : Args) : run Obj :=
  p <- load_ptr ;;
  s <- load_selected_type_ ;;
  (if is_nullptr p || negb (s =? index)
   then c <- new_TypeWrapper T args ;; reset (Some c)
   else ret tt) ;;
  store_selected_type_ index ;;
  static_cast_object_ T.

Definition invalid_const_access : string :=
  "[quick::variant]: const access is now allowed if corrosponding type is not already set".

(** The body of the const overload [at<index>()]. *)
Definition at_const_body (T : Ty) (index : nat) : run Obj :=
  p <- load_ptr ;;
  s <- load_selected_type_ ;;
  (if is_nullptr p || negb (s =? index)
   then throw (runtime_error invalid_const_access)
   else ret tt) ;;
  static_cast_object_ T.

(** The member templates themselves.  Instantiating one at [index] needs
    [NthType<index>] in its signature: [None] means the instantiation is
    ill-formed and a program that names it does not compile. *)
Definition at_ (index : nat) : option (Args → run Obj) :=
  T ← NthType index; Some (at_body T index).

Definition at_const (index : nat) : option (run Obj) :=
  T ← NthType index; Some (at_const_body T index).

Definition clear : run unit := reset None.

Definition initialized (v : variant) : bool := negb (is_nullptr (ptr v)).

Definition selected_type (v : variant) : nat :=
  if is_nullptr (ptr v) then length Ts else selected_type_ v.

(** ** The state machine the operations implement *)

(** The states of the variant as its clients see them. *)
Inductive State : Type :=
| Empty
| Holding (i : nat).

#[global] Instance State_eq_dec : EqDecision State.
Proof. solve_decision. Defined.

Definition state_of (v : variant) : State :=
  match ptr v with
  | None => Empty
  | Some _ => Holding (selected_type_ v)
  end.

(** The cell, when there is one, has the type the stored index names. *)
Definition well_typed (v : variant) : Prop :=
  ∀ c, ptr v = Some c → NthType (selected_type_ v) = Some (dynamic_type c).

(** Discriminant and storage agree: the index reported for an absent cell is
    the sentinel [sizeof...(Ts)], the index reported for a present cell is a
    position of the cell's payload type in [Ts]. *)
Definition synchronized (v : variant) : Prop :=
  match ptr v with
  | None => selected_type v = length Ts
  | Some c => NthType (selected_type v) = Some (dynamic_type c)
  end.

(** Number of payloads alive after the events of [tr], none being alive
    before. *)
Definition live_step (n : nat) (e : event) : nat :=
  match e with
  | EvConstruct _ => S n
  | EvDestroy _ => pred n
  end.

Definition live (tr : list event) : nat := foldl live_step 0 tr.

(** At no point of [tr] are two payloads alive together. *)
Definition at_most_one_live (tr : list event) : Prop :=
  ∀ pre, pre `prefix_of` tr → live pre ≤ 1.

Definition destroy_events (p : option AbstractBaseType) : list event :=
  match p with
  | Some c => [EvDestroy c]
  | None => []
  end.

(** Calls a client can make, and what they give back. *)
Inductive call : Type :=
| CallAt (index : nat) (args : Args)
| CallAtConst (index : nat)
| CallClear
| CallInitialized
| CallSelectedType.

Inductive value : Type :=
| VObj (o : Obj)
| VBool (b : bool)
| VIndex (n : nat)
| VUnit.

Definition invoke (c : call) : option (run value) :=
  match c with
  | CallAt index args => f ← at_ index; Some (o <- f args ;; ret (VObj o))
  | CallAtConst index => f ← at_const index; Some (o <- f ;; ret (VObj o))
  | CallClear => Some (clear ;; ret VUnit)
  | CallInitialized => Some (λ m, Returns (VBool (initialized (self m))) m)
  | CallSelectedType => Some (λ m, Returns (VIndex (selected_type (self m))) m)
  end.

(** States a program can be in between two calls, starting from a
    default-constructed variant; a call that throws is one the caller may
    catch and carry on after. *)
Inductive reachable : machine → Prop :=
| reachable_initial : reachable initial
| reachable_returns c f m a m' :
    reachable m → invoke c = Some f → f m = Returns a m' → reachable m'
| reachable_throws c f m e m' :
    reachable m → invoke c = Some f → f m = Throws e m' → reachable m'.

(** ** Equations of the operations *)

Lemma mismatch_true (v : variant) (index : nat) :
  is_nullptr (ptr v) || negb (selected_type_ v =? index) = true
  ↔ state_of v ≠ Holding index.
Proof.
  unfold state_of. destruct (ptr v) as [c|]; simpl; [|done].
  destruct (Nat.eqb_spec (selected_type_ v) index) as [->|Hne]; simpl.
  - split; [done|]. intros H. by destruct H.
  - split; [|done]. intros _ [= ?]. done.
Qed.

Lemma state_of_Holding (v : variant) (index : nat) :
  state_of v = Holding index
  ↔ ∃ c, ptr v = Some c ∧ selected_type_ v = index.
Proof.
  unfold state_of. destruct (ptr v) as [c|]; split.
  - intros [= <-]. by exists c.
  - by intros (? & _ & <-).
  - done.
  - by intros (? & ? & _).
Qed.

(** Same index, cell of the right type: nothing is built or destroyed. *)
Lemma at_body_reuse (T : Ty) (index : nat) (args : Args) (m : machine)
    (c : AbstractBaseType) :
  ptr (self m) = Some c → selected_type_ (self m) = index →
  dynamic_type c = T →
  at_body T index args m = Returns (object_ c) m.
Proof.
  destruct m as [[p s] tr]; simpl. intros -> -> HT.
  unfold at_body, bind, load_ptr, load_selected_type_; simpl.
  rewrite Nat.eqb_refl; simpl.
  unfold static_cast_object_, bind, load_ptr; simpl.
  by rewrite decide_True.
Qed.

(** Same index, cell of another type: the cast is invalid. *)
Lemma at_body_ill_typed (T : Ty) (index : nat) (args : Args) (m : machine)
    (c : AbstractBaseType) :
  ptr (self m) = Some c → selected_type_ (self m) = index →
  dynamic_type c ≠ T →
  at_body T index args m = Undefined.
Proof.
  destruct m as [[p s] tr]; simpl. intros -> -> HT.
  unfold at_body, bind, load_ptr, load_selected_type_; simpl.
  rewrite Nat.eqb_refl; simpl.
  unfold static_cast_object_, bind, load_ptr; simpl.
  by rewrite decide_False.
Qed.

(** Empty, or another index: the new payload is built, then the pointer is
    redirected, then the old payload (if any) is destroyed. *)
Lemma at_body_construct (T : Ty) (index : nat) (args : Args) (m : machine)
    (o : Obj) :
  state_of (self m) ≠ Holding index → construct T args = inr o →
  at_body T index args m =
  Returns o {| self := {| ptr := Some (TypeWrapper T o);
                          selected_type_ := index |};
               trace := trace m ++ EvConstruct (TypeWrapper T o)
                                :: destroy_events (ptr (self m)) |}.
Proof.
  intros Hst Hc. apply mismatch_true in Hst.
  destruct m as [[p s] tr]; simpl in *.
  unfold at_body, bind, load_ptr, load_selected_type_; simpl.
  rewrite Hst. unfold new_TypeWrapper. rewrite Hc.
  unfold bind, emit, ret, reset, bind, load_ptr, store_ptr; simpl.
  destruct p as [old|]; simpl;
    unfold static_cast_object_, bind, load_ptr, ret; simpl;
    rewrite decide_True by done; simpl.
  - by rewrite <- app_assoc.
  - done.
Qed.

(** Empty, or another index, and [new] throws: nothing has changed. *)
Lemma at_body_throw (T : Ty) (index : nat) (args : Args) (m : machine)
    (e : Exn) :
  state_of (self m) ≠ Holding index → construct T args = inl e →
  at_body T index args m = Throws (raised_by_new e) m.
Proof.
  intros Hst Hc. apply mismatch_true in Hst.
  unfold at_body, bind, load_ptr, load_selected_type_; simpl.
  rewrite Hst. unfold new_TypeWrapper. by rewrite Hc.
Qed.

Lemma at_const_body_throw (T : Ty) (index : nat) (m : machine) :
  state_of (self m) ≠ Holding index →
  at_const_body T index m = Throws (runtime_error invalid_const_access) m.
Proof.
  intros Hst. apply mismatch_true in Hst.
  unfold at_const_body, bind, load_ptr, load_selected_type_; simpl.
  by rewrite Hst.
Qed.

Lemma at_const_body_read (T : Ty) (index : nat) (m : machine)
    (c : AbstractBaseType) :
  ptr (self m) = Some c → selected_type_ (self m) = index →
  dynamic_type c = T →
  at_const_body T index m = Returns (object_ c) m.
Proof.
  intros Hp Hs HT.
  unfold at_const_body, bind, load_ptr, load_selected_type_; simpl.
  rewrite Hp, Hs, Nat.eqb_refl; simpl.
  unfold static_cast_object_, bind, load_ptr, ret; simpl.
  rewrite Hp. by rewrite decide_True.
Qed.

Lemma at_const_body_ill_typed (T : Ty) (index : nat) (m : machine)
    (c : AbstractBaseType) :
  ptr (self m) = Some c → selected_type_ (self m) = index →
  dynamic_type c ≠ T →
  at_const_body T index m = Undefined.
Proof.
  intros Hp Hs HT.
  unfold at_const_body, bind, load_ptr, load_selected_type_; simpl.
  rewrite Hp, Hs, Nat.eqb_refl; simpl.
  unfold static_cast_object_, bind, load_ptr, ret; simpl.
  rewrite Hp. by rewrite decide_False.
Qed.

Lemma clear_eq (m : machine) :
  clear m =
  Returns tt {| self := {| ptr := None;
                           selected_type_ := selected_type_ (self m) |};
                trace := trace m ++ destroy_events (ptr (self m)) |}.
Proof.
  unfold clear, reset, bind, load_ptr, store_ptr; simpl.
  destruct (ptr (self m)); simpl; [done|].
  unfold ret. by rewrite app_nil_r.
Qed.

Lemma at_Some (index : nat) (T : Ty) :
  NthType index = Some T → at_ index = Some (at_body T index).
Proof. unfold at_. by intros ->. Qed.

Lemma at_const_Some (index : nat) (T : Ty) :
  NthType index = Some T → at_const index = Some (at_const_body T index).
Proof. unfold at_const. by intros ->. Qed.

Lemma at_inv (index : nat) (f : Args → run Obj) :
  at_ index = Some f → ∃ T, NthType index = Some T ∧ f = at_body T index.
Proof.
  unfold at_. destruct (NthType index) as [T|]; simpl; [|done].
  intros [= <-]. by exists T.
Qed.

Lemma at_const_inv (index : nat) (f : run Obj) :
  at_const index = Some f →
  ∃ T, NthType index = Some T ∧ f = at_const_body T index.
Proof.
  unfold at_const. destruct (NthType index) as [T|]; simpl; [|done].
  intros [= <-]. by exists T.
Qed.

(** ** The four ways a call of [at<index>(args...)] can go *)

Inductive at_spec (T : Ty) (index : nat) (args : Args) (m : machine)
  : outcome Obj → Prop :=
| at_reused c :
    ptr (self m) = Some c → selected_type_ (self m) = index →
    dynamic_type c = T →
    at_spec T index args m (Returns (object_ c) m)
| at_bad_cast c :
    ptr (self m) = Some c → selected_type_ (self m) = index →
    dynamic_type c ≠ T →
    at_spec T index args m Undefined
| at_built o :
    state_of (self m) ≠ Holding index → construct T args = inr o →
    at_spec T index args m
      (Returns o {| self := {| ptr := Some (TypeWrapper T o);
                               selected_type_ := index |};
                    trace := trace m ++ EvConstruct (TypeWrapper T o)
                                     :: destroy_events (ptr (self m)) |})
| at_failed e :
    state_of (self m) ≠ Holding index → construct T args = inl e →
    at_spec T index args m (Throws (raised_by_new e) m).

Lemma at_body_spec (T : Ty) (index : nat) (args : Args) (m : machine) :
  at_spec T index args m (at_body T index args m).
Proof.
  destruct (decide (state_of (self m) = Holding index)) as [Hst|Hst].
  - apply state_of_Holding in Hst as (c & Hp & Hs).
    destruct (decide (dynamic_type c = T)) as [HT|HT].
    + rewrite (at_body_reuse T index args m c) by done. by constructor.
    + rewrite (at_body_ill_typed T index args m c) by done.
      by apply at_bad_cast with c.
  - destruct (construct T args) as [e|o] eqn:Hc.
    + rewrite (at_body_throw T index args m e) by done. by constructor.
    + rewrite (at_body_construct T index args m o) by done. by constructor.
Qed.

Inductive at_const_spec (T : Ty) (index : nat) (m : machine)
  : outcome Obj → Prop :=
| at_const_read c :
    ptr (self m) = Some c → selected_type_ (self m) = index →
    dynamic_type c = T →
    at_const_spec T index m (Returns (object_ c) m)
| at_const_bad_cast c :
    ptr (self m) = Some c → selected_type_ (self m) = index →
    dynamic_type c ≠ T →
    at_const_spec T index m Undefined
| at_const_refused :
    state_of (self m) ≠ Holding index →
    at_const_spec T index m (Throws (runtime_error invalid_const_access) m).

Lemma at_const_body_spec (T : Ty) (index : nat) (m : machine) :
  at_const_spec T index m (at_const_body T index m).
Proof.
  destruct (decide (state_of (self m) = Holding index)) as [Hst|Hst].
  - apply state_of_Holding in Hst as (c & Hp & Hs).
    destruct (decide (dynamic_type c = T)) as [HT|HT].
    + rewrite (at_const_body_read T index m c) by done. by constructor.
    + rewrite (at_const_body_ill_typed T index m c) by done.
      by apply at_const_bad_cast with c.
  - rewrite at_const_body_throw by done. by constructor.
Qed.

(** ** What holds between any two calls *)

(** One payload is alive exactly when there is a cell. *)
Definition live_matches (m : machine) : Prop :=
  live (trace m) = if is_nullptr (ptr (self m)) then 0 else 1.

Definition consistent (m : machine) : Prop :=
  well_typed (self m) ∧ live_matches m.

Lemma live_app (tr tr' : list event) :
  live (tr ++ tr') = foldl live_step (live tr) tr'.
Proof. unfold live. apply foldl_app. Qed.

Lemma well_typed_synchronized (v : variant) : well_typed v → synchronized v.
Proof.
  unfold well_typed, synchronized, selected_type.
  destruct (ptr v) as [c|]; simpl; [|done].
  intros H. by apply H.
Qed.

Lemma consistent_initial : consistent initial.
Proof. split; [by intros c [=]|done]. Qed.

Lemma at_body_consistent (T : Ty) (index : nat) (args : Args) (m : machine) :
  NthType index = Some T → consistent m →
  match at_body T index args m with
  | Returns _ m' | Throws _ m' => consistent m'
  | Undefined => False
  end.
Proof.
  intros HT [Hwt Hlive].
  destruct (at_body_spec T index args m) as [c Hp Hs Hc|c Hp Hs Hc|o Hst Hc|e Hst Hc].
  - done.
  - apply Hwt in Hp. rewrite Hs, HT in Hp. by injection Hp as ->.
  - split.
    + intros c; simpl. by intros [= <-].
    + unfold live_matches in *; simpl. rewrite live_app, Hlive.
      by destruct (ptr (self m)).
  - done.
Qed.

Lemma at_const_body_consistent (T : Ty) (index : nat) (m : machine) :
  NthType index = Some T → consistent m →
  match at_const_body T index m with
  | Returns _ m' | Throws _ m' => consistent m'
  | Undefined => False
  end.
Proof.
  intros HT [Hwt Hlive].
  destruct (at_const_body_spec T index m) as [c Hp Hs Hc|c Hp Hs Hc|Hst].
  - done.
  - apply Hwt in Hp. rewrite Hs, HT in Hp. by injection Hp as ->.
  - done.
Qed.

Lemma clear_consistent (m : machine) :
  consistent m →
  match clear m with
  | Returns _ m' | Throws _ m' => consistent m'
  | Undefined => False
  end.
Proof.
  intros [Hwt Hlive]. rewrite clear_eq. split.
  - by intros c [=].
  - unfold live_matches in *; simpl. rewrite live_app, Hlive.
    by destruct (ptr (self m)).
Qed.

Lemma invoke_consistent (c : call) (f : run value) (m : machine) :
  consistent m → invoke c = Some f →
  match f m with
  | Returns _ m' | Throws _ m' => consistent m'
  | Undefined => False
  end.
Proof.
  intros Hm. destruct c as [index args|index| | |]; simpl.
  - destruct (at_ index) as [g|] eqn:Hg; simpl; [|done].
    intros [= <-]. apply at_inv in Hg as (T & HT & ->).
    pose proof (at_body_consistent T index args m HT Hm) as H.
    unfold bind. by destruct (at_body T index args m).
  - destruct (at_const index) as [g|] eqn:Hg; simpl; [|done].
    intros [= <-]. apply at_const_inv in Hg as (T & HT & ->).
    pose proof (at_const_body_consistent T index m HT Hm) as H.
    unfold bind. by destruct (at_const_body T index m).
  - intros [= <-]. pose proof (clear_consistent m Hm) as H.
    unfold bind. by destruct (clear m).
  - by intros [= <-].
  - by intros [= <-].
Qed.

Lemma reachable_consistent (m : machine) : reachable m → consistent m.
Proof.
  induction 1 as [|c f m a m' _ IH Hf Hr|c f m e m' _ IH Hf Hr].
  - apply consistent_initial.
  - pose proof (invoke_consistent c f m IH Hf) as H. by rewrite Hr in H.
  - pose proof (invoke_consistent c f m IH Hf) as H. by rewrite Hr in H.
Qed.

(** No call made in a reachable state has undefined behaviour. *)
Lemma reachable_defined (c : call) (f : run value) (m : machine) :
  reachable m → invoke c = Some f → f m ≠ Undefined.
Proof.
  intros Hm Hf Hu. pose proof (invoke_consistent c f m
    (reachable_consistent m Hm) Hf) as H. by rewrite Hu in H.
Qed.

(** ** Properties of the operations *)

(** C1.  For a valid index, a call of [at<index>(args2)] on a variant that
    already holds a payload at [index] builds and destroys nothing, leaves
    the variant as it is and returns the payload held, whatever [args2] is.
    Hence [at<index>(args1)] followed by [at<index>(args2)] returns twice the
    same value, and when the first call had to build it (the variant was
    empty or held another index), that value is the one built from
    [args1]. *)
Theorem at_same_index_reuses_value (index : nat) (f : Args → run Obj)
    (args1 args2 : Args) :
  at_ index = Some f →
  (∀ m c, ptr (self m) = Some c → selected_type_ (self m) = index →
          NthType index = Some (dynamic_type c) →
          f args2 m = Returns (object_ c) m)
  ∧ (∀ m0 a m, f args1 m0 = Returns a m → f args2 m = Returns a m)
  ∧ (∀ m0 T o, NthType index = Some T →
               state_of (self m0) ≠ Holding index →
               construct T args1 = inr o →
               ∃ m, f args1 m0 = Returns o m
                    ∧ state_of (self m) = Holding index
                    ∧ f args2 m = Returns o m).
Proof.
  intros Hf. apply at_inv in Hf as (T & HT & ->).
  split; [|split].
  - intros m c Hp Hs Hc. rewrite HT in Hc. injection Hc as Hc.
    by apply at_body_reuse.
  - intros m0 a m Hr.
    pose proof (at_body_spec T index args1 m0) as Hspec. rewrite Hr in Hspec.
    inversion Hspec as [c Hp Hs Hc|?|o Hst Hc|?]; subst.
    + by apply at_body_reuse.
    + by apply (at_body_reuse _ _ _ _ (TypeWrapper T a)).
  - intros m0 T' o HT' Hst Hc. rewrite HT in HT'. injection HT' as <-.
    eexists. split; [by apply at_body_construct|]. split; [done|].
    by apply (at_body_reuse _ _ _ _ (TypeWrapper T o)).
Qed.

(** C2.  For a valid index, the const overload [at<index>()] throws its
    [std::runtime_error] exactly when the variant is not holding a payload
    at [index]: in particular on a default-constructed variant, and after
    [at<j>(args)] returned for some other index [j].  Whether it throws or
    returns, the variant and the record of constructions and destructions
    are what they were before the call. *)
Theorem at_const_throws_iff_not_holding (index : nat) (f : run Obj)
    (m : machine) :
  at_const index = Some f →
  (f m = Throws (runtime_error invalid_const_access) m
   ↔ state_of (self m) ≠ Holding index)
  ∧ (∀ e m', f m = Throws e m' →
             e = runtime_error invalid_const_access ∧ m' = m)
  ∧ (∀ a m', f m = Returns a m' → m' = m)
  ∧ f initial = Throws (runtime_error invalid_const_access) initial
  ∧ (∀ j g args a m1, j ≠ index → at_ j = Some g →
                      g args m = Returns a m1 →
                      f m1 = Throws (runtime_error invalid_const_access) m1).
Proof.
  intros Hf. apply at_const_inv in Hf as (T & HT & ->).
  pose proof (at_const_body_spec T index m) as Hspec.
  split; [split|split; [|split; [|split]]].
  - intros Hr. rewrite Hr in Hspec. by inversion Hspec.
  - by apply at_const_body_throw.
  - intros e m' Hr. rewrite Hr in Hspec. by inversion Hspec.
  - intros a m' Hr. rewrite Hr in Hspec. by inversion Hspec.
  - by apply at_const_body_throw.
  - intros j g args a m1 Hj Hg Hr. apply at_inv in Hg as (Tj & HTj & ->).
    apply at_const_body_throw.
    pose proof (at_body_spec Tj j args m) as Hat. rewrite Hr in Hat.
    inversion Hat as [c Hp Hs Hc|?|o Hst Hc|?]; subst.
    + rewrite state_of_Holding. by intros (c' & _ & Hs').
    + unfold state_of; simpl. by intros [= ?].
Qed.

(** C3.  In every state reached from a default-constructed variant by calls
    of [at<i>(args)], the const [at<i>()], [clear()], [initialized()] and
    [selected_type()] (calls that throw included): when there is no cell,
    [selected_type()] reports the sentinel [sizeof...(Ts)]; when there is a
    cell, [selected_type()] is an index below [sizeof...(Ts)], the type
    [NthType] names at it is the type of the cell's payload, and it is the
    only such index when the types that the indices name are distinct. *)
Theorem reachable_synchronized (m : machine) :
  reachable m →
  (ptr (self m) = None → selected_type (self m) = length Ts)
  ∧ (∀ c, ptr (self m) = Some c →
          NthType (selected_type (self m)) = Some (dynamic_type c)
          ∧ selected_type (self m) < length Ts
          ∧ (NoDup (omap decltype_call Ts) →
             ∀ k, NthType k = Some (dynamic_type c) →
                  k = selected_type (self m))).
Proof.
  intros Hm. apply reachable_consistent in Hm as [Hwt _].
  apply well_typed_synchronized in Hwt. unfold synchronized in Hwt.
  split.
  - intros Hp. by rewrite Hp in Hwt.
  - intros c Hp. rewrite Hp in Hwt. split; [done|]. split.
    + apply (variant_impl.GetNthType_is_Some decltype_call). by eexists.
    + intros Hnd k Hk.
      by apply (variant_impl.GetNthType_inj decltype_call Ts _ _
                  (dynamic_type c)).
Qed.

(** The switch property as the specification words it: a call of
    [at<j>(args)] that returns never has two payloads alive together. *)
Definition switch_keeps_one_live (j : nat) (args : Args) (m : machine)
  : Prop :=
  ∀ f a m', at_ j = Some f → f args m = Returns a m' →
            at_most_one_live (trace m').

(** C4, as the code has it.  Between calls at most one payload is alive.
    When [at<j>(args)] is called on a variant holding a payload at another
    index [i] and [new] succeeds, the call builds the new payload first and
    destroys the previous one right after, once, before it returns: two
    payloads are alive in between, and on return the cell is the new one and
    one payload is alive again. *)
Theorem at_switch_constructs_then_destroys (i j : nat) (T : Ty) (args : Args)
    (m : machine) (old : AbstractBaseType) (o : Obj) :
  i ≠ j → NthType j = Some T → reachable m →
  ptr (self m) = Some old → selected_type_ (self m) = i →
  construct T args = inr o →
  ∃ f m', at_ j = Some f ∧ f args m = Returns o m'
    ∧ self m' = {| ptr := Some (TypeWrapper T o); selected_type_ := j |}
    ∧ trace m' =
        trace m ++ [EvConstruct (TypeWrapper T o); EvDestroy old]
    ∧ live (trace m) = 1
    ∧ live (trace m ++ [EvConstruct (TypeWrapper T o)]) = 2
    ∧ live (trace m') = 1.
Proof.
  intros Hij HT Hm Hp Hs Hc.
  apply reachable_consistent in Hm as [_ Hlive].
  unfold live_matches in Hlive. rewrite Hp in Hlive; simpl in Hlive.
  exists (at_body T j). eexists. split; [by apply at_Some|].
  split.
  { apply at_body_construct; [|done].
    rewrite state_of_Holding. intros (? & _ & Hs'). congruence. }
  rewrite Hp; simpl. repeat split; try done.
  - by rewrite live_app, Hlive.
  - by rewrite live_app, Hlive.
Qed.

(** C5.  For a valid index and any state of the variant, when
    [at<index>(args)] returns, [selected_type()] is [index] and
    [initialized()] is true.  The call does return when it finds the variant
    empty or at another index and [new] succeeds, and when it finds a
    payload of the right type at [index]. *)
Theorem at_sets_selected_type (index : nat) (T : Ty) (args : Args)
    (m : machine) :
  NthType index = Some T →
  ∃ f, at_ index = Some f
    ∧ (∀ a m', f args m = Returns a m' →
               selected_type (self m') = index
               ∧ initialized (self m') = true
               ∧ state_of (self m') = Holding index)
    ∧ (∀ o, state_of (self m) ≠ Holding index → construct T args = inr o →
            ∃ m', f args m = Returns o m')
    ∧ (state_of (self m) = Holding index → well_typed (self m) →
       ∃ a, f args m = Returns a m).
Proof.
  intros HT. exists (at_body T index). split; [by apply at_Some|].
  split; [|split].
  - intros a m' Hr.
    pose proof (at_body_spec T index args m) as Hspec. rewrite Hr in Hspec.
    inversion Hspec as [c Hp Hs Hc|?|o Hst Hc|?]; subst.
    + unfold selected_type, initialized, state_of. by rewrite Hp.
    + done.
  - intros o Hst Hc. eexists. by apply at_body_construct.
  - intros Hst Hwt. apply state_of_Holding in Hst as (c & Hp & Hs).
    exists (object_ c). apply at_body_reuse; [done..|].
    apply Hwt in Hp. rewrite Hs, HT in Hp. by injection Hp.
Qed.

(** C6.  In any state, [clear()] returns, destroys the cell if there is one
    and leaves the variant empty: [initialized()] is false,
    [selected_type()] is the sentinel [sizeof...(Ts)], and the const
    [at<index>()] throws for every index.  A second [clear()] changes
    nothing. *)
Theorem clear_empties (m : machine) :
  ∃ m', clear m = Returns tt m'
    ∧ trace m' = trace m ++ destroy_events (ptr (self m))
    ∧ state_of (self m') = Empty
    ∧ initialized (self m') = false
    ∧ selected_type (self m') = length Ts
    ∧ (∀ index f, at_const index = Some f →
                  f m' = Throws (runtime_error invalid_const_access) m')
    ∧ clear m' = Returns tt m'.
Proof.
  eexists. split; [apply clear_eq|]. simpl.
  do 4 (split; [done|]). split.
  - intros index f Hf. apply at_const_inv in Hf as (T & _ & ->).
    by apply at_const_body_throw.
  - rewrite clear_eq; simpl. by rewrite app_nil_r.
Qed.

(** The read-back property as the specification words it: [at<index>()]
    right after [at<index>(args)] returns the value built from [args]. *)
Definition read_back_yields_args_value (index : nat) (args : Args)
    (m : machine) : Prop :=
  ∀ T f g a m', NthType index = Some T → at_ index = Some f →
                at_const index = Some g → f args m = Returns a m' →
                ∃ o, construct T args = inr o ∧ g m' = Returns o m'.

(** C7, as the code has it.  For a valid index, the const [at<index>()]
    called right after [at<index>(args)] returned succeeds, changes nothing
    and returns the value that call returned.  That value is the one built
    from [args] when the variant was empty or at another index before the
    call; when it already held a payload at [index], it is that payload. *)
Theorem at_const_reads_back (index : nat) (T : Ty) (args : Args)
    (m : machine) :
  NthType index = Some T →
  ∃ f g, at_ index = Some f ∧ at_const index = Some g
    ∧ (∀ a m', f args m = Returns a m' → g m' = Returns a m')
    ∧ (∀ o, state_of (self m) ≠ Holding index → construct T args = inr o →
            ∃ m', f args m = Returns o m' ∧ g m' = Returns o m')
    ∧ (∀ c a m', ptr (self m) = Some c → selected_type_ (self m) = index →
                 f args m = Returns a m' → a = object_ c).
Proof.
  intros HT. exists (at_body T index), (at_const_body T index).
  split; [by apply at_Some|]. split; [by apply at_const_Some|].
  split; [|split].
  - intros a m' Hr.
    pose proof (at_body_spec T index args m) as Hspec. rewrite Hr in Hspec.
    inversion Hspec as [c Hp Hs Hc|?|o Hst Hc|?]; subst.
    + by apply at_const_body_read.
    + by apply (at_const_body_read _ _ _ (TypeWrapper T a)).
  - intros o Hst Hc. eexists. split; [by apply at_body_construct|].
    by apply (at_const_body_read _ _ _ (TypeWrapper T o)).
  - intros c a m' Hp Hs Hr.
    pose proof (at_body_spec T index args m) as Hspec. rewrite Hr in Hspec.
    inversion Hspec as [c' Hp' Hs' Hc'|?|o Hst Hc|?]; subst.
    + congruence.
    + exfalso. apply Hst. apply state_of_Holding. by exists c.
Qed.


(** C9.  For a valid index, when [new] throws inside [at<index>(args)], which
    it can only do when the variant is empty or at another index, the
    exception reaches the caller and the variant is exactly what it was:
    same cell, same stored index, nothing built, nothing destroyed.  No
    other exception leaves [at<index>(args)]. *)
Theorem at_failed_construction_changes_nothing (index : nat) (T : Ty)
    (args : Args) (m : machine) :
  NthType index = Some T →
  ∃ f, at_ index = Some f
    ∧ (∀ e, state_of (self m) ≠ Holding index → construct T args = inl e →
            f args m = Throws (raised_by_new e) m)
    ∧ (∀ x m', f args m = Throws x m' →
               m' = m ∧ state_of (self m) ≠ Holding index
               ∧ ∃ e, x = raised_by_new e ∧ construct T args = inl e).
Proof.
  intros HT. exists (at_body T index). split; [by apply at_Some|]. split.
  - intros e Hst Hc. by apply at_body_throw.
  - intros x m' Hr.
    pose proof (at_body_spec T index args m) as Hspec. rewrite Hr in Hspec.
    inversion Hspec as [?|?|?|e Hst Hc]; subst.
    split; [done|]. split; [done|]. by exists e.
Qed.

(** C10.  [clear()] leaves [selected_type_] as it was, and yet the index that
    was active is not seen again: after [clear()], [selected_type()] is the
    sentinel, the const [at<i>()] throws for every index, and [at<i>(args)]
    builds a new payload from [args] for every valid [i] for which [new]
    succeeds, the index active before [clear()] included. *)
Theorem clear_hides_stale_index (m : machine) :
  ∃ m1, clear m = Returns tt m1
    ∧ selected_type_ (self m1) = selected_type_ (self m)
    ∧ selected_type (self m1) = length Ts
    ∧ (∀ i g, at_const i = Some g →
              g m1 = Throws (runtime_error invalid_const_access) m1)
    ∧ (∀ i T args o, NthType i = Some T → construct T args = inr o →
         ∃ f, at_ i = Some f
           ∧ f args m1 =
             Returns o {| self := {| ptr := Some (TypeWrapper T o);
                                     selected_type_ := i |};
                          trace := trace m1 ++ [EvConstruct (TypeWrapper T o)] |}).
Proof.
  eexists. split; [apply clear_eq|]. simpl.
  split; [done|]. split; [done|]. split.
  - intros i g Hg. apply at_const_inv in Hg as (T & _ & ->).
    by apply at_const_body_throw.
  - intros i T args o HT Hc. exists (at_body T i).
    split; [by apply at_Some|].
    by rewrite (at_body_construct T i args _ o).
Qed.

(** ** Further properties of the variant *)

(** The cells built, and the cells destroyed, in the order of a trace. *)
Fixpoint cells_constructed (tr : list event) : list AbstractBaseType :=
  match tr with
  | [] => []
  | EvConstruct c :: tr' => c :: cells_constructed tr'
  | EvDestroy _ :: tr' => cells_constructed tr'
  end.

Fixpoint cells_destroyed (tr : list event) : list AbstractBaseType :=
  match tr with
  | [] => []
  | EvConstruct _ :: tr' => cells_destroyed tr'
  | EvDestroy c :: tr' => c :: cells_destroyed tr'
  end.

Definition held (v : variant) : list AbstractBaseType :=
  match ptr v with
  | Some c => [c]
  | None => []
  end.

(** [~variant()], implicitly defined: the member [ptr] is destroyed, and
    [~unique_ptr] deletes the cell it owns, if any, through the virtual
    destructor of [AbstractBaseType]. *)
Definition variant_destructor : run unit :=
  p <- load_ptr ;;
  match p with
  | Some c => emit (EvDestroy c)
  | None => ret tt
  end.

Lemma cells_constructed_app (tr tr' : list event) :
  cells_constructed (tr ++ tr') = cells_constructed tr ++ cells_constructed tr'.
Proof.
  induction tr as [|[c|c] tr IH]; simpl; [done| |done]. by rewrite IH.
Qed.

Lemma cells_destroyed_app (tr tr' : list event) :
  cells_destroyed (tr ++ tr') = cells_destroyed tr ++ cells_destroyed tr'.
Proof.
  induction tr as [|[c|c] tr IH]; simpl; [done|done|]. by rewrite IH.
Qed.

(** Every cell built so far has been destroyed, in the order of building,
    but for the one the variant holds. *)
Definition accounted (m : machine) : Prop :=
  cells_constructed (trace m) = cells_destroyed (trace m) ++ held (self m).

Lemma invoke_accounted (c : call) (f : run value) (m : machine) :
  consistent m → accounted m → invoke c = Some f →
  match f m with
  | Returns _ m' | Throws _ m' => accounted m'
  | Undefined => True
  end.
Proof.
  intros Hm Ha. destruct c as [index args|index| | |]; simpl.
  - destruct (at_ index) as [g|] eqn:Hg; simpl; [|done].
    intros [= <-]. apply at_inv in Hg as (T & HT & ->). unfold bind.
    destruct (at_body_spec T index args m) as [c Hp Hs Hc|c Hp Hs Hc|o Hst Hc|e Hst Hc];
      simpl; try done.
    unfold accounted in *; simpl.
    rewrite cells_constructed_app, cells_destroyed_app, Ha; simpl.
    unfold held. destruct (ptr (self m)); simpl.
    + by rewrite <- app_assoc.
    + by rewrite !app_nil_r.
  - destruct (at_const index) as [g|] eqn:Hg; simpl; [|done].
    intros [= <-]. apply at_const_inv in Hg as (T & HT & ->). unfold bind.
    by destruct (at_const_body_spec T index m).
  - intros [= <-]. unfold bind. rewrite clear_eq; simpl.
    unfold accounted in *; simpl.
    rewrite cells_constructed_app, cells_destroyed_app, Ha.
    unfold held. destruct (ptr (self m)); simpl; by rewrite !app_nil_r.
  - by intros [= <-].
  - by intros [= <-].
Qed.

Lemma reachable_accounted (m : machine) : reachable m → accounted m.
Proof.
  induction 1 as [|c f m a m' Hm IH Hf Hr|c f m e m' Hm IH Hf Hr].
  - done.
  - pose proof (invoke_accounted c f m (reachable_consistent m Hm) IH Hf) as H.
    by rewrite Hr in H.
  - pose proof (invoke_accounted c f m (reachable_consistent m Hm) IH Hf) as H.
    by rewrite Hr in H.
Qed.

(** X1.  In a state reached from a default-constructed variant no call has
    undefined behaviour: the [static_cast] in either [at] always meets a cell
    of the type it names.  A call that throws leaves the variant and the
    record of constructions and destructions untouched; [at<i>(args)] throws
    only what [new] raised, the const [at<i>()] only its
    [std::runtime_error], and [clear()], [initialized()] and
    [selected_type()] never throw. *)
Theorem reachable_call_defined_and_exception_safe (c : call) (f : run value)
    (m : machine) :
  reachable m → invoke c = Some f →
  f m ≠ Undefined
  ∧ (∀ e m', f m = Throws e m' →
       m' = m
       ∧ match c with
         | CallAt _ _ => ∃ x, e = raised_by_new x
         | CallAtConst _ => e = runtime_error invalid_const_access
         | _ => False
         end).
Proof.
  intros Hm Hf. split.
  { intros Hu. pose proof (invoke_consistent c f m
      (reachable_consistent m Hm) Hf) as H. by rewrite Hu in H. }
  intros e m' Hr. destruct c as [index args|index| | |]; simpl in Hf.
  - destruct (at_ index) as [g|] eqn:Hg; simpl in Hf; [|done].
    injection Hf as <-. apply at_inv in Hg as (T & HT & ->).
    unfold bind in Hr.
    destruct (at_body_spec T index args m) as [?|?|?|x Hst Hc]; try done.
    injection Hr as <- <-. split; [done|by exists x].
  - destruct (at_const index) as [g|] eqn:Hg; simpl in Hf; [|done].
    injection Hf as <-. apply at_const_inv in Hg as (T & HT & ->).
    unfold bind in Hr.
    destruct (at_const_body_spec T index m) as [?|?|Hst]; try done.
    by injection Hr as <- <-.
  - injection Hf as <-. unfold bind in Hr. by rewrite clear_eq in Hr.
  - by injection Hf as <-.
  - by injection Hf as <-.
Qed.

(** X2.  In a state reached from a default-constructed variant, the cells
    built so far are, in the same order, the cells destroyed so far followed
    by the cell the variant holds, if it holds one: nothing is destroyed
    twice or before it is built, and nothing but the held cell is still
    alive.  Destroying the variant then destroys that last cell, after which
    the cells destroyed are exactly the cells built. *)
Theorem reachable_cells_accounted (m : machine) :
  reachable m →
  cells_constructed (trace m) = cells_destroyed (trace m) ++ held (self m)
  ∧ ∃ m', variant_destructor m = Returns tt m'
          ∧ cells_destroyed (trace m') = cells_constructed (trace m')
          ∧ cells_constructed (trace m') = cells_constructed (trace m).
Proof.
  intros Hm. apply reachable_accounted in Hm. unfold accounted in Hm.
  split; [done|].
  unfold variant_destructor, bind, load_ptr, held in *.
  destruct (ptr (self m)) as [c|]; simpl.
  - eexists. split; [done|]. simpl.
    rewrite cells_constructed_app, cells_destroyed_app; simpl.
    by rewrite app_nil_r.
  - exists m. split; [done|]. by rewrite app_nil_r in Hm.
Qed.

End Variant.

Arguments Returns {Ty Obj Exn A} a m.
Arguments Throws {Ty Obj Exn A} e m.
Arguments Undefined {Ty Obj Exn A}.

(** ** variant<int, std::string> *)

Module int_string.

Inductive type : Type := Int | Text.

#[global] Instance type_eq_dec : EqDecision type.
Proof. solve_decision. Defined.

Inductive object : Type :=
| IntObj (z : Z)
| TextObj (s : string).

(** Argument packs: one [int], one string literal, or a request the
    allocator cannot serve. *)
Inductive pack : Type :=
| FromInt (z : Z)
| FromText (s : string)
| NoMemory.

Inductive failure : Type := bad_alloc | no_matching_constructor.

(** An [int] is built from an [int] and a string from a string literal; the
    other combinations are calls that would not compile, and are made to
    fail so that the function is total. *)
Definition construct (T : type) (a : pack) : failure + object :=
  match T, a with
  | _, NoMemory => inl bad_alloc
  | Int, FromInt z => inr (IntObj z)
  | Text, FromText s => inr (TextObj s)
  | _, _ => inl no_matching_constructor
  end.

Definition Ts : list type := [Int; Text].

(** [int] and [std::string] can be returned by value and carry no
    qualifier: the call has the type itself. *)
Definition decltype_call (T : type) : option type := Some T.

(** The const overload at this instance. *)
Abbreviation read := (at_const_body (Obj := object) (Exn := failure)).

Definition hello : AbstractBaseType := TypeWrapper Text (TextObj "hello").

Definition five : AbstractBaseType := TypeWrapper Int (IntObj 5).

(** The variant after [at<1>("hello")] on a default-constructed one. *)
Definition m_hello : machine :=
  {| self := {| ptr := Some hello; selected_type_ := 1 |};
     trace := [EvConstruct hello] |}.

(** The variant after [at<0>(5)] on a default-constructed one. *)
Definition m_five : machine :=
  {| self := {| ptr := Some five; selected_type_ := 0 |};
     trace := [EvConstruct five] |}.

(** The variant after [at<0>(42)] on [m_hello]. *)
Definition m_switched : machine :=
  {| self := {| ptr := Some (TypeWrapper Int (IntObj 42));
                selected_type_ := 0 |};
     trace := [EvConstruct hello; EvConstruct (TypeWrapper Int (IntObj 42));
               EvDestroy hello] |}.

Lemma reachable_m_hello : reachable decltype_call Ts construct m_hello.
Proof.
  by refine (reachable_returns decltype_call Ts construct (CallAt 1 (FromText "hello")) _
               initial (VObj (TextObj "hello")) _ (reachable_initial _ _ _) _ _).
Defined.

Lemma reachable_m_five : reachable decltype_call Ts construct m_five.
Proof.
  by refine (reachable_returns decltype_call Ts construct (CallAt 0 (FromInt 5)) _
               initial (VObj (IntObj 5)) _ (reachable_initial _ _ _) _ _).
Defined.

(** The scenario of the specification, call by call. *)
Example scenario :
  at_ decltype_call Ts construct 1 = Some (at_body construct Text 1)
  ∧ at_body construct Text 1 (FromText "hello") initial
    = Returns (TextObj "hello") m_hello
  ∧ selected_type Ts (self m_hello) = 1
  ∧ read Text 1 m_hello = Returns (TextObj "hello") m_hello
  ∧ read Int 0 m_hello
    = Throws (runtime_error invalid_const_access) m_hello
  ∧ at_body construct Int 0 (FromInt 42) m_hello
    = Returns (IntObj 42) m_switched
  ∧ selected_type Ts (self m_switched) = 0
  ∧ read Text 1 m_switched
    = Throws (runtime_error invalid_const_access) m_switched.
Proof. repeat split. Qed.

Lemma at_same_index_reuses_value_witness :
  at_ decltype_call Ts construct 0 = Some (at_body construct Int 0)
  ∧ ∃ m, at_body construct Int 0 (FromInt 5) initial = Returns (IntObj 5) m
         ∧ state_of (self m) = Holding 0
         ∧ at_body construct Int 0 (FromInt 9) m = Returns (IntObj 5) m.
Proof.
  split; [reflexivity|].
  destruct (at_same_index_reuses_value decltype_call Ts construct 0
              (at_body construct Int 0) (FromInt 5) (FromInt 9) eq_refl)
    as (_ & _ & H).
  apply (H initial Int (IntObj 5)); [reflexivity| |reflexivity].
  vm_compute. discriminate.
Defined.

Lemma at_const_throws_iff_not_holding_witness :
  at_const (Exn := failure) decltype_call Ts 0 = Some (read Int 0)
  ∧ (read Int 0 m_hello
     = Throws (runtime_error invalid_const_access) m_hello
     ↔ state_of (self m_hello) ≠ Holding 0)
  ∧ read Int 0 initial
    = Throws (runtime_error invalid_const_access) initial.
Proof.
  split; [reflexivity|].
  destruct (at_const_throws_iff_not_holding decltype_call Ts construct 0
              (read Int 0) m_hello eq_refl)
    as (H1 & _ & _ & H2 & _).
  split; [exact H1|exact H2].
Defined.

Lemma reachable_synchronized_witness :
  reachable decltype_call Ts construct m_hello
  ∧ NthType decltype_call Ts (selected_type Ts (self m_hello)) = Some Text
  ∧ selected_type Ts (self m_hello) < 2.
Proof.
  split; [exact reachable_m_hello|].
  destruct (reachable_synchronized decltype_call Ts construct m_hello reachable_m_hello)
    as (_ & H).
  destruct (H hello eq_refl) as (H1 & H2 & _).
  split; [exact H1|exact H2].
Defined.

(** C4, as worded, fails: [at<0>(42)] on a variant holding ["hello"] at
    index 1 has the [int] and the string alive together, between the [new]
    and the deletion that [reset] performs. *)
Lemma two_payloads_alive_during_switch :
  reachable decltype_call Ts construct m_hello
  ∧ state_of (self m_hello) = Holding 1
  ∧ at_body construct Int 0 (FromInt 42) m_hello = Returns (IntObj 42) m_switched
  ∧ live [EvConstruct hello; EvConstruct (TypeWrapper Int (IntObj 42))] = 2
  ∧ ¬ switch_keeps_one_live decltype_call Ts construct 0 (FromInt 42) m_hello.
Proof.
  split; [exact reachable_m_hello|].
  do 3 (split; [reflexivity|]).
  intros H.
  specialize (H (at_body construct Int 0) (IntObj 42) m_switched
                eq_refl eq_refl
                [EvConstruct hello; EvConstruct (TypeWrapper Int (IntObj 42))]).
  assert (Hlt : 2 ≤ 1); [|lia].
  apply H. by exists [EvDestroy hello].
Qed.

Lemma at_switch_constructs_then_destroys_witness :
  ∃ f m', at_ decltype_call Ts construct 0 = Some f
    ∧ f (FromInt 42) m_hello = Returns (IntObj 42) m'
    ∧ self m' = {| ptr := Some (TypeWrapper Int (IntObj 42));
                   selected_type_ := 0 |}
    ∧ trace m' = trace m_hello
                 ++ [EvConstruct (TypeWrapper Int (IntObj 42)); EvDestroy hello]
    ∧ live (trace m_hello) = 1
    ∧ live (trace m_hello ++ [EvConstruct (TypeWrapper Int (IntObj 42))]) = 2
    ∧ live (trace m') = 1.
Proof.
  apply (at_switch_constructs_then_destroys decltype_call Ts construct 1 0 Int (FromInt 42)
           m_hello hello (IntObj 42));
    [lia|reflexivity|exact reachable_m_hello|reflexivity..].
Defined.

Lemma at_sets_selected_type_witness :
  ∃ m', at_body construct Int 0 (FromInt 5) initial = Returns (IntObj 5) m'
        ∧ selected_type Ts (self m') = 0
        ∧ initialized (self m') = true.
Proof.
  destruct (at_sets_selected_type decltype_call Ts construct 0 Int (FromInt 5) initial
              eq_refl) as (f & Hf & Hpost & Hbuilds & _).
  injection Hf as <-.
  destruct (Hbuilds (IntObj 5)) as (m' & Hm'); [vm_compute; discriminate|reflexivity|].
  exists m'. split; [exact Hm'|].
  destruct (Hpost (IntObj 5) m' Hm') as (H1 & H2 & _).
  split; [exact H1|exact H2].
Defined.

(** C7, as worded, fails: on a variant that holds 5 at index 0, [at<0>(9)]
    followed by the const [at<0>()] reads 5, while 9 is what the arguments
    build. *)
Lemma read_back_after_reuse_is_old_value :
  reachable decltype_call Ts construct m_five
  ∧ at_body construct Int 0 (FromInt 9) m_five = Returns (IntObj 5) m_five
  ∧ read Int 0 m_five = Returns (IntObj 5) m_five
  ∧ construct Int (FromInt 9) = inr (IntObj 9)
  ∧ ¬ read_back_yields_args_value decltype_call Ts construct 0 (FromInt 9) m_five.
Proof.
  split; [exact reachable_m_five|].
  do 3 (split; [reflexivity|]).
  intros H.
  destruct (H Int (at_body construct Int 0) (read Int 0)
              (IntObj 5) m_five eq_refl eq_refl eq_refl eq_refl)
    as (o & Ho & Hg).
  vm_compute in Ho. vm_compute in Hg. congruence.
Qed.

Lemma at_const_reads_back_witness :
  ∃ m', at_body construct Int 0 (FromInt 42) m_hello = Returns (IntObj 42) m'
        ∧ read Int 0 m' = Returns (IntObj 42) m'.
Proof.
  destruct (at_const_reads_back decltype_call Ts construct 0 Int (FromInt 42) m_hello
              eq_refl) as (f & g & Hf & Hg & _ & Hbuilt & _).
  injection Hf as <-. injection Hg as <-.
  apply Hbuilt; [vm_compute; discriminate|reflexivity].
Defined.

Lemma at_failed_construction_changes_nothing_witness :
  at_body construct Int 0 NoMemory m_hello
  = Throws (raised_by_new bad_alloc) m_hello.
Proof.
  destruct (at_failed_construction_changes_nothing decltype_call Ts construct 0 Int
              NoMemory m_hello eq_refl) as (f & Hf & Hthrows & _).
  injection Hf as <-.
  apply Hthrows; [vm_compute; discriminate|reflexivity].
Defined.

Lemma reachable_m_switched : reachable decltype_call Ts construct m_switched.
Proof.
  by refine (reachable_returns decltype_call Ts construct (CallAt 0 (FromInt 42)) _
               m_hello (VObj (IntObj 42)) _ reachable_m_hello _ _).
Defined.

Lemma reachable_call_defined_and_exception_safe_witness :
  ∃ f, invoke decltype_call Ts construct (CallAt 0 NoMemory) = Some f
       ∧ f m_hello ≠ Undefined
       ∧ ∀ e m', f m_hello = Throws e m' →
                 m' = m_hello ∧ ∃ x, e = raised_by_new x.
Proof.
  eexists. split; [reflexivity|].
  apply (reachable_call_defined_and_exception_safe decltype_call Ts construct
           (CallAt 0 NoMemory) _ m_hello reachable_m_hello eq_refl).
Defined.

Lemma reachable_cells_accounted_witness :
  cells_constructed (trace m_switched)
  = cells_destroyed (trace m_switched) ++ held (self m_switched)
  ∧ ∃ m', variant_destructor (Exn := failure) m_switched = Returns tt m'
          ∧ cells_destroyed (trace m') = cells_constructed (trace m')
          ∧ cells_constructed (trace m') = cells_constructed (trace m_switched).
Proof.
  apply (reachable_cells_accounted decltype_call Ts construct m_switched
           reachable_m_switched).
Defined.

End int_string.

(** ** variant<const int, int[3], std::string> *)

Module qualified.

Inductive type : Type := Int | ConstInt | IntArray3 | Text.

(** A call returning [const int] by value has type [int]; no function
    returns an array. *)
Definition decltype_call (T : type) : option type :=
  match T with
  | Int | ConstInt => Some Int
  | IntArray3 => None
  | Text => Some Text
  end.

Definition Ts : list type := [ConstInt; IntArray3; Text].

(** Index 0 names [int], not [const int]; index 1 is below the length of the
    pack and yet names nothing; index 3 is out of range. *)
Example NthType_of_qualified_pack :
  NthType decltype_call Ts 0 = Some Int
  ∧ NthType decltype_call Ts 1 = None
  ∧ NthType decltype_call Ts 2 = Some Text
  ∧ NthType decltype_call Ts 3 = None.
Proof. repeat split. Qed.

End qualified.

(** * quick::DebugStream (debug_stream.hpp)

    The stream is the record of its three public members together with the
    characters its [std::ostringstream] base holds.  Texts are lists of
    characters.  Member functions and the [operator<<] overloads are
    actions on that record which return or throw. *)

Module debug_stream.

Abbreviation text := (list ascii).

Definition newline : ascii := "010"%char.

Definition NUL : ascii := "000"%char.

Definition space : ascii := " "%char.

Definition uint32_modulus : N := (2 ^ 32)%N.

Record DebugStream : Type := Stream {
  str : text;
  is_inline : bool;
  indentation_space : N;
  depth : N
}.

(** [DebugStream()]: the default member initialisers. *)
Definition DebugStream_default : DebugStream :=
  {| str := []; is_inline := false; indentation_space := 2; depth := 0 |}.

(** The members hold a [bool], a [uint8_t] and a [uint32_t]. *)
Definition representable (ds : DebugStream) : Prop :=
  (indentation_space ds < 256)%N ∧ (depth ds < uint32_modulus)%N.

Inductive result (A : Type) : Type :=
| Ok (a : A) (ds : DebugStream)
| Raise (what : string) (ds : DebugStream).
Arguments Ok {A} a ds.
Arguments Raise {A} what ds.

Definition action (A : Type) : Type := DebugStream → result A.

Definition ret {A : Type} (a : A) : action A := λ ds, Ok a ds.

Definition bind {A B : Type} (p : action A) (k : A → action B) : action B :=
  λ ds, match p ds with
        | Ok a ds' => k a ds'
        | Raise what ds' => Raise what ds'
        end.

Notation "x <- c1 ;; c2" := (bind c1 (λ x, c2))
  (at level 100, c1 at next level, right associativity).
Notation "c1 ;; c2" := (bind c1 (λ _, c2))
  (at level 100, right associativity).

Definition raise {A : Type} (what : string) : action A := λ ds, Raise what ds.

Definition get {A : Type} (field : DebugStream → A) : action A :=
  λ ds, Ok (field ds) ds.

Definition set_is_inline (value : bool) : action unit :=
  λ ds, Ok tt {| str := str ds; is_inline := value;
                 indentation_space := indentation_space ds;
                 depth := depth ds |}.

Definition set_indentation_space (value : N) : action unit :=
  λ ds, Ok tt {| str := str ds; is_inline := is_inline ds;
                 indentation_space := value; depth := depth ds |}.

Definition set_depth (value : N) : action unit :=
  λ ds, Ok tt {| str := str ds; is_inline := is_inline ds;
                 indentation_space := indentation_space ds;
                 depth := value |}.

(** [std::operator<<(static_cast<BaseStream&>( *this), s)]: the characters go
    to the base stream as they are. *)
Definition write (s : text) : action unit :=
  λ ds, Ok tt {| str := str ds ++ s; is_inline := is_inline ds;
                 indentation_space := indentation_space ds;
                 depth := depth ds |}.

(** [string(depth*indentation_space, ' ')]: the product is computed in
    [uint32_t]. *)
Definition padding (ds : DebugStream) : text :=
  replicate (N.to_nat ((depth ds * indentation_space ds) mod uint32_modulus))
            space.

Definition TabSpace : action unit := λ ds, write (padding ds) ds.

(** [operator<<(char c)]. *)
Definition put_char (c : ascii) : action unit :=
  write [c] ;;
  if decide (c = newline) then TabSpace else ret tt.

(** [operator<<(const char* input)]: [input] lists the characters found
    from the pointer on, and the end of the list stands for a terminator;
    the loop stops at the first [NUL]. *)
Fixpoint put_cstr (input : text) : action unit :=
  match input with
  | [] => ret tt
  | c :: rest => if decide (c = NUL) then ret tt
                 else put_char c ;; put_cstr rest
  end.

(** [operator<<(const std::string& input)]. *)
Fixpoint put_string (input : text) : action unit :=
  match input with
  | [] => ret tt
  | c :: rest => put_char c ;; put_string rest
  end.

Definition invalid_branch_end : string :=
  "[quick::DebugStream]: Invalid BranchEnd".

Definition BranchStart (c : ascii) : action unit :=
  put_char c ;;
  inl <- get is_inline ;;
  if negb inl
  then write [newline] ;;
       d <- get depth ;;
       set_depth ((d + 1) mod uint32_modulus) ;;
       TabSpace
  else ret tt.

Definition BranchEnd (c : ascii) : action unit :=
  inl <- get is_inline ;;
  (if negb inl
   then write [newline] ;;
        d <- get depth ;;
        (if (d =? 0)%N then raise invalid_branch_end else ret tt) ;;
        set_depth (d - 1) ;;
        TabSpace
   else ret tt) ;;
  put_char c.

(** [SetInline] and [SetIndentation]. *)
Definition SetInline (value : bool) : action unit := set_is_inline value.

Definition SetIndentation (value : N) : action unit :=
  set_indentation_space value.

(** [ScopedControlsStruct<ValueType>].  A pointer to a member of the stream
    is given by how to read and how to write that member. *)
Record member_ptr (V : Type) : Type := MemberPtr {
  load : DebugStream → V;
  store : V → action unit
}.
Arguments load {V} _.
Arguments store {V} _.

Definition ptr_is_inline : member_ptr bool :=
  {| load := is_inline; store := set_is_inline |}.

Definition ptr_indentation_space : member_ptr N :=
  {| load := indentation_space; store := set_indentation_space |}.

Record ScopedControlsStruct (V : Type) : Type := Scoped {
  new_value : V;
  original_value : V;
  restore_pointer : option (member_ptr V)
}.
Arguments new_value {V} _.
Arguments original_value {V} _.
Arguments restore_pointer {V} _.

(** The constructor reads the member, keeps what it read, and writes the
    new value. *)
Definition ScopedControlsStruct_ctor {V : Type} (value : V)
    (p : member_ptr V) : action (ScopedControlsStruct V) :=
  original <- get (load p) ;;
  store p value ;;
  ret {| new_value := value; original_value := original;
         restore_pointer := Some p |}.

Definition ScopedControlsStruct_dtor {V : Type}
    (s : ScopedControlsStruct V) : action unit :=
  match restore_pointer s with
  | Some p => store p (original_value s)
  | None => ret tt
  end.

Definition SetInlineForThisScope (value : bool)
  : action (ScopedControlsStruct bool) :=
  ScopedControlsStruct_ctor value ptr_is_inline.

Definition SetIndentationForThisScope (value : N)
  : action (ScopedControlsStruct N) :=
  ScopedControlsStruct_ctor value ptr_indentation_space.

(** A block that declares a scoped control first (the object returned by
    [SetInlineForThisScope] or [SetIndentationForThisScope] being built in
    place): the destructor runs when the block is left, by its end or by an
    exception. *)
Definition in_scope {V A : Type} (enter : action (ScopedControlsStruct V))
    (body : action A) : action A :=
  λ ds, match enter ds with
        | Ok s ds1 =>
            match body ds1 with
            | Ok a ds2 =>
                match ScopedControlsStruct_dtor s ds2 with
                | Ok _ ds3 => Ok a ds3
                | Raise what ds3 => Raise what ds3
                end
            | Raise what ds2 =>
                match ScopedControlsStruct_dtor s ds2 with
                | Ok _ ds3 | Raise _ ds3 => Raise what ds3
                end
            end
        | Raise what ds1 => Raise what ds1
        end.

(** ** The free [operator<<] overloads

    What [ds << item] does for an element depends on the element type; the
    overloads for containers take the printer of their elements as an
    argument. *)

Definition lit (s : string) : text := String.list_ascii_of_string s.

(** [operator<<(const T&)] for fundamental [T] other than [char]:
    [BaseStream::operator<<] writes the characters the standard stream
    produces for the value, here [format input]. *)
Definition put_fundamental {T : Type} (format : T → text) (input : T)
  : action unit :=
  write (format input).

(** Enumerations, [input] being the value of [static_cast<int32_t>]. *)
Definition put_enum (format : Z → text) (input : Z) : action unit :=
  put_cstr (lit "ENUM-") ;; put_fundamental format input.

(** The loop over the items of a vector, list or set. *)
Fixpoint put_items {A : Type} (pr : A → action unit) (items : list A)
    (is_first_item : bool) : action unit :=
  match items with
  | [] => ret tt
  | item :: rest =>
      put_cstr (if is_first_item then lit "" else lit ", ") ;;
      pr item ;;
      put_items pr rest false
  end.

(** [std::vector], [std::list], [std::unordered_set], [std::set]; [input]
    lists the elements in iteration order. *)
Definition put_sequence {A : Type} (pr : A → action unit) (input : list A)
  : action unit :=
  if length input =? 0 then put_cstr (lit "[]")
  else BranchStart "["%char ;; put_items pr input true ;; BranchEnd "]"%char.

(** The loop over the items of a map. *)
Fixpoint put_entries {K V : Type} (pk : K → action unit) (pv : V → action unit)
    (items : list (K * V)) (is_first_item : bool) : action unit :=
  match items with
  | [] => ret tt
  | item :: rest =>
      (if negb is_first_item
       then put_cstr (lit ",") ;;
            inl <- get is_inline ;;
            if negb inl then put_cstr [newline] else ret tt
       else ret tt) ;;
      set_is_inline true ;;
      pk (fst item) ;;
      set_is_inline false ;;
      put_cstr (lit ": ") ;;
      pv (snd item) ;;
      put_entries pk pv rest false
  end.

(** [std::map], [std::unordered_map]. *)
Definition put_map {K V : Type} (pk : K → action unit) (pv : V → action unit)
    (input : list (K * V)) : action unit :=
  if length input =? 0 then put_cstr (lit "{}")
  else BranchStart "{"%char ;; put_entries pk pv input true ;;
       BranchEnd "}"%char.

(** [std::pair]. *)
Definition put_pair {A B : Type} (p1 : A → action unit) (p2 : B → action unit)
    (input : A * B) : action unit :=
  BranchStart "("%char ;;
  p1 (fst input) ;;
  put_cstr (lit ", ") ;;
  p2 (snd input) ;;
  BranchEnd ")"%char.

(** A type with a member [void DebugStream(quick::DebugStream&) const],
    given by what that member does to the stream. *)
Definition put_object (hook : action unit) : action unit :=
  BranchStart "{"%char ;; hook ;; BranchEnd "}"%char.

(** ** Equations *)

(** The stream with [s] appended to its characters. *)
Definition appended (ds : DebugStream) (s : text) : DebugStream :=
  {| str := str ds ++ s; is_inline := is_inline ds;
     indentation_space := indentation_space ds; depth := depth ds |}.

Definition pad_at (d ind : N) : text :=
  replicate (N.to_nat ((d * ind) mod uint32_modulus)) space.

(** [s] with [pad] inserted after each of its newlines. *)
Fixpoint indented (pad : text) (s : text) : text :=
  match s with
  | [] => []
  | c :: rest =>
      c :: (if decide (c = newline) then pad ++ indented pad rest
            else indented pad rest)
  end.

Fixpoint count_newlines (s : text) : nat :=
  match s with
  | [] => 0
  | c :: rest =>
      (if decide (c = newline) then 1 else 0) + count_newlines rest
  end.

(** The characters before the first [NUL]. *)
Fixpoint c_str (s : text) : text :=
  match s with
  | [] => []
  | c :: rest => if decide (c = NUL) then [] else c :: c_str rest
  end.

Definition same_controls (ds ds' : DebugStream) : Prop :=
  is_inline ds' = is_inline ds
  ∧ indentation_space ds' = indentation_space ds
  ∧ depth ds' = depth ds.

Lemma appended_nil (ds : DebugStream) : appended ds [] = ds.
Proof. destruct ds. unfold appended; simpl. by rewrite app_nil_r. Qed.

Lemma appended_appended (ds : DebugStream) (s1 s2 : text) :
  appended (appended ds s1) s2 = appended ds (s1 ++ s2).
Proof. unfold appended; simpl. by rewrite app_assoc. Qed.

Lemma padding_pad_at (ds : DebugStream) :
  padding ds = pad_at (depth ds) (indentation_space ds).
Proof. done. Qed.

Lemma padding_appended (ds : DebugStream) (s : text) :
  padding (appended ds s) = padding ds.
Proof. done. Qed.

Lemma write_eq (s : text) (ds : DebugStream) :
  write s ds = Ok tt (appended ds s).
Proof. done. Qed.

Lemma put_char_eq (c : ascii) (ds : DebugStream) :
  put_char c ds = Ok tt (appended ds (indented (padding ds) [c])).
Proof.
  unfold put_char, bind, write, TabSpace, write, ret; simpl.
  case_decide; simpl; [|done].
  unfold appended; simpl. rewrite <- app_assoc; simpl.
  by rewrite app_nil_r.
Qed.

Lemma put_string_eq (s : text) (ds : DebugStream) :
  put_string s ds = Ok tt (appended ds (indented (padding ds) s)).
Proof.
  revert ds. induction s as [|c s IH]; intros ds; simpl.
  - unfold ret. by rewrite appended_nil.
  - unfold bind. rewrite put_char_eq, IH, appended_appended, padding_appended.
    simpl. case_decide; simpl; [|done]. by rewrite app_nil_r.
Qed.

Lemma put_cstr_eq (s : text) (ds : DebugStream) :
  put_cstr s ds = put_string (c_str s) ds.
Proof.
  revert ds. induction s as [|c s IH]; intros ds; simpl; [done|].
  case_decide; simpl; [done|].
  unfold bind. destruct (put_char c ds); [apply IH|done].
Qed.

Lemma indented_app (pad s1 s2 : text) :
  indented pad (s1 ++ s2) = indented pad s1 ++ indented pad s2.
Proof.
  induction s1 as [|c s1 IH]; simpl; [done|].
  case_decide; rewrite IH; [|done]. by rewrite <- app_assoc.
Qed.

Lemma indented_no_newline (pad s : text) :
  newline ∉ s → indented pad s = s.
Proof.
  induction s as [|c s IH]; simpl; [done|].
  intros Hn. apply not_elem_of_cons in Hn as [Hc Hs].
  rewrite decide_False by done. by rewrite IH.
Qed.

Lemma indented_length (pad s : text) :
  length (indented pad s) = length s + count_newlines s * length pad.
Proof.
  induction s as [|c s IH]; simpl; [done|].
  case_decide; simpl; rewrite ?length_app, IH; lia.
Qed.

Lemma c_str_no_NUL (s : text) : NUL ∉ s → c_str s = s.
Proof.
  induction s as [|c s IH]; simpl; [done|].
  intros Hn. apply not_elem_of_cons in Hn as [Hc Hs].
  rewrite decide_False by done. by rewrite IH.
Qed.

Lemma c_str_terminated (s1 s2 : text) :
  NUL ∉ s1 → c_str (s1 ++ NUL :: s2) = s1.
Proof.
  induction s1 as [|c s1 IH]; simpl.
  - done.
  - intros Hn. apply not_elem_of_cons in Hn as [Hc Hs].
    rewrite decide_False by done. by rewrite IH.
Qed.

Definition with_depth (ds : DebugStream) (d : N) : DebugStream :=
  {| str := str ds; is_inline := is_inline ds;
     indentation_space := indentation_space ds; depth := d |}.

Lemma bind_Ok {A B : Type} (p : action A) (k : A → action B)
    (ds ds1 : DebugStream) (a : A) :
  p ds = Ok a ds1 → bind p k ds = k a ds1.
Proof. unfold bind. by intros ->. Qed.

Lemma bind_Raise {A B : Type} (p : action A) (k : A → action B)
    (ds ds1 : DebugStream) (what : string) :
  p ds = Raise what ds1 → bind p k ds = Raise what ds1.
Proof. unfold bind. by intros ->. Qed.

Lemma bind_Ok_ext {A B : Type} (p : action A) (k k' : A → action B)
    (ds : DebugStream) :
  (∀ ds1 a, k a ds1 = k' a ds1) → bind p k ds = bind p k' ds.
Proof. intros Hk. unfold bind. by destruct (p ds). Qed.

Lemma prefix_appended (ds : DebugStream) (s : text) :
  str ds `prefix_of` str (appended ds s).
Proof. by apply prefix_app_r. Qed.

Lemma BranchStart_inline (c : ascii) (ds : DebugStream) :
  is_inline ds = true → BranchStart c ds = put_char c ds.
Proof.
  intros Hi. unfold BranchStart, bind. rewrite put_char_eq.
  unfold get; simpl. by rewrite Hi.
Qed.

Lemma BranchStart_block (c : ascii) (ds : DebugStream) :
  is_inline ds = false →
  BranchStart c ds =
  Ok tt (appended
           (with_depth (appended ds (indented (padding ds) [c] ++ [newline]))
                       ((depth ds + 1) mod uint32_modulus))
           (pad_at ((depth ds + 1) mod uint32_modulus) (indentation_space ds))).
Proof.
  intros Hi. unfold BranchStart, bind. rewrite put_char_eq.
  unfold get; simpl. rewrite Hi; simpl.
  unfold TabSpace, write, appended, with_depth, padding, pad_at; simpl.
  do 3 f_equal. by rewrite <- app_assoc.
Qed.

Lemma BranchEnd_inline (c : ascii) (ds : DebugStream) :
  is_inline ds = true → BranchEnd c ds = put_char c ds.
Proof.
  intros Hi. unfold BranchEnd, bind, get; simpl. by rewrite Hi.
Qed.

Lemma BranchEnd_underflow (c : ascii) (ds : DebugStream) :
  is_inline ds = false → depth ds = 0%N →
  BranchEnd c ds = Raise invalid_branch_end (appended ds [newline]).
Proof.
  destruct ds as [s i ind d]; simpl. by intros -> ->.
Qed.

Lemma BranchEnd_block (c : ascii) (ds : DebugStream) :
  is_inline ds = false → depth ds ≠ 0%N →
  BranchEnd c ds =
  Ok tt (appended
           (with_depth (appended ds [newline]) (depth ds - 1))
           (pad_at (depth ds - 1) (indentation_space ds)
            ++ indented (pad_at (depth ds - 1) (indentation_space ds)) [c])).
Proof.
  intros Hi Hd. unfold BranchEnd, bind, get; simpl. rewrite Hi; simpl.
  apply N.eqb_neq in Hd. rewrite Hd; simpl.
  rewrite put_char_eq.
  unfold TabSpace, write, appended, with_depth, padding, pad_at; simpl.
  do 2 f_equal. by rewrite <- !app_assoc.
Qed.

(** ** Properties of the stream *)

(** X3.  Writing a string never throws, changes neither [is_inline] nor
    [indentation_space] nor [depth], and appends to what the stream holds:
    the characters of the string, each newline followed by
    [depth*indentation_space] (in [uint32_t]) spaces, so that the stream
    grows by the length of the string plus that padding once per newline.
    Writing [s1 ++ s2] is writing [s1] and then [s2]. *)
Theorem put_string_appends_indented (s1 s2 : text) (ds : DebugStream) :
  (∃ ds', put_string s1 ds = Ok tt ds'
          ∧ same_controls ds ds'
          ∧ str ds' = str ds ++ indented (padding ds) s1
          ∧ length (str ds') =
              length (str ds) + length s1
              + count_newlines s1 * length (padding ds))
  ∧ put_string (s1 ++ s2) ds = (put_string s1 ;; put_string s2) ds.
Proof.
  split.
  - eexists. split; [apply put_string_eq|]. split; [done|]. split; [done|].
    simpl. rewrite length_app, indented_length. lia.
  - unfold bind. rewrite !put_string_eq, padding_appended, appended_appended.
    by rewrite indented_app.
Qed.

(** X4.  A string without a newline is appended to the stream as it is,
    whatever the depth and the indentation. *)
Theorem put_string_verbatim (s : text) (ds : DebugStream) :
  newline ∉ s → put_string s ds = Ok tt (appended ds s).
Proof. intros Hs. by rewrite put_string_eq, indented_no_newline. Qed.

(** X5.  The overload for [const char*] writes the characters up to the
    first [NUL] and nothing of what follows it: on characters without a
    [NUL] it does what the overload for [std::string] does, and a [NUL]
    inside a [std::string] is written by the latter only. *)
Theorem put_cstr_stops_at_NUL (s1 s2 : text) (ds : DebugStream) :
  NUL ∉ s1 →
  put_cstr s1 ds = put_string s1 ds
  ∧ put_cstr (s1 ++ NUL :: s2) ds = put_string s1 ds
  ∧ put_string (s1 ++ NUL :: s2) ds
    = (put_string s1 ;; write [NUL] ;; put_string s2) ds.
Proof.
  intros Hs. split; [|split].
  - by rewrite put_cstr_eq, c_str_no_NUL.
  - by rewrite put_cstr_eq, c_str_terminated.
  - unfold bind. rewrite !put_string_eq, write_eq, put_string_eq.
    rewrite !padding_appended, !appended_appended, indented_app. done.
Qed.

(** X6.  [BranchEnd] throws exactly when the stream is not inline and its
    depth is 0, and by then it has already written the newline: the stream
    the caller is left with holds one more character. *)
Theorem BranchEnd_throws_iff_underflow (c : ascii) (ds : DebugStream) :
  (is_inline ds = false ∧ depth ds = 0%N →
   BranchEnd c ds = Raise invalid_branch_end (appended ds [newline]))
  ∧ (∀ what ds', BranchEnd c ds = Raise what ds' →
                 is_inline ds = false ∧ depth ds = 0%N).
Proof.
  split.
  - intros [Hi Hd]. by apply BranchEnd_underflow.
  - intros what ds' Hr. destruct (is_inline ds) eqn:Hi.
    + by rewrite BranchEnd_inline, put_char_eq in Hr.
    + split; [done|]. destruct (decide (depth ds = 0%N)) as [|Hd]; [done|].
      by rewrite BranchEnd_block in Hr.
Qed.

(** ** Printers that leave the stream in order

    A printer is tidy at nesting [k] when, on a stream whose depth can still
    grow by [k], it returns, has only appended characters, and leaves
    [is_inline], [indentation_space] and [depth] as it found them. *)

Definition tidy (k : N) (p : action unit) : Prop :=
  ∀ ds, (depth ds + k < uint32_modulus)%N →
        ∃ ds', p ds = Ok tt ds'
               ∧ same_controls ds ds'
               ∧ str ds `prefix_of` str ds'.

Lemma tidy_mono (k k' : N) (p : action unit) :
  (k ≤ k')%N → tidy k p → tidy k' p.
Proof. intros Hk Hp ds Hd. apply Hp. lia. Qed.

Lemma tidy_put_string (k : N) (s : text) : tidy k (put_string s).
Proof.
  intros ds _. eexists. split; [apply put_string_eq|].
  split; [done|apply prefix_appended].
Qed.

Lemma tidy_put_cstr (k : N) (s : text) : tidy k (put_cstr s).
Proof.
  intros ds Hd. rewrite put_cstr_eq. by apply (tidy_put_string k).
Qed.

Lemma tidy_put_fundamental {T : Type} (k : N) (format : T → text) (x : T) :
  tidy k (put_fundamental format x).
Proof.
  intros ds _. eexists. split; [apply write_eq|].
  split; [done|apply prefix_appended].
Qed.

Lemma bind_assoc {A B C : Type} (p : action A) (q : A → action B)
    (r : B → action C) (ds : DebugStream) :
  bind (bind p q) r ds = bind p (λ a, bind (q a) r) ds.
Proof. unfold bind. by destruct (p ds). Qed.

Lemma tidy_ext (k : N) (p q : action unit) :
  (∀ ds, p ds = q ds) → tidy k p → tidy k q.
Proof. intros Heq Hp ds Hd. rewrite <- Heq. by apply Hp. Qed.

Lemma tidy_ret (k : N) : tidy k (ret tt).
Proof. intros ds _. by exists ds. Qed.

Lemma tidy_seq (k : N) (p q : action unit) :
  tidy k p → tidy k q → tidy k (p ;; q).
Proof.
  intros Hp Hq ds Hd.
  destruct (Hp ds Hd) as (ds1 & H1 & (Hi1 & Hn1 & Hd1) & Hpre1).
  destruct (Hq ds1) as (ds2 & H2 & (Hi2 & Hn2 & Hd2) & Hpre2);
    [by rewrite Hd1|].
  exists ds2. split; [by rewrite (bind_Ok _ _ _ _ _ H1)|].
  split; [|by etrans].
  repeat split; congruence.
Qed.

Lemma tidy_put_enum (k : N) (format : Z → text) (x : Z) :
  tidy k (put_enum format x).
Proof. apply tidy_seq; [apply tidy_put_cstr|apply tidy_put_fundamental]. Qed.

(** What [BranchStart] and [BranchEnd] do to the controls. *)
Lemma BranchStart_controls (c : ascii) (ds : DebugStream) :
  ∃ ds', BranchStart c ds = Ok tt ds'
         ∧ is_inline ds' = is_inline ds
         ∧ indentation_space ds' = indentation_space ds
         ∧ depth ds' = (if is_inline ds then depth ds
                        else (depth ds + 1) mod uint32_modulus)%N
         ∧ str ds `prefix_of` str ds'.
Proof.
  destruct (is_inline ds) eqn:Hi.
  - rewrite BranchStart_inline, put_char_eq by done. eexists.
    split; [done|]. simpl. repeat split; try done. by apply prefix_app_r.
  - rewrite BranchStart_block by done. eexists.
    split; [done|]. simpl. repeat split; try done.
    by do 2 apply prefix_app_r.
Qed.

Lemma BranchEnd_controls (c : ascii) (ds : DebugStream) :
  is_inline ds = true ∨ depth ds ≠ 0%N →
  ∃ ds', BranchEnd c ds = Ok tt ds'
         ∧ is_inline ds' = is_inline ds
         ∧ indentation_space ds' = indentation_space ds
         ∧ depth ds' = (if is_inline ds then depth ds else depth ds - 1)%N
         ∧ str ds `prefix_of` str ds'.
Proof.
  intros Hok. destruct (is_inline ds) eqn:Hi.
  - rewrite BranchEnd_inline, put_char_eq by done. eexists.
    split; [done|]. simpl. repeat split; try done. by apply prefix_app_r.
  - destruct Hok as [|Hd]; [done|].
    rewrite BranchEnd_block by done. eexists.
    split; [done|]. simpl. repeat split; try done.
    by do 2 apply prefix_app_r.
Qed.

Lemma tidy_bracket (k : N) (c1 c2 : ascii) (body : action unit) :
  tidy k body → tidy (k + 1) (BranchStart c1 ;; body ;; BranchEnd c2).
Proof.
  intros Hbody ds Hd.
  destruct (BranchStart_controls c1 ds) as (ds1 & H1 & Hi1 & Hn1 & Hd1 & Hp1).
  assert (Hd1' : depth ds1 = if is_inline ds then depth ds
                             else (depth ds + 1)%N).
  { rewrite Hd1. destruct (is_inline ds); [done|].
    apply N.mod_small. lia. }
  destruct (Hbody ds1) as (ds2 & H2 & (Hi2 & Hn2 & Hd2) & Hp2).
  { rewrite Hd1'. destruct (is_inline ds); lia. }
  destruct (BranchEnd_controls c2 ds2) as (ds3 & H3 & Hi3 & Hn3 & Hd3 & Hp3).
  { rewrite Hi2, Hi1, Hd2, Hd1'. destruct (is_inline ds); [by left|right; lia]. }
  exists ds3. split.
  { rewrite (bind_Ok _ _ _ _ _ H1). by rewrite (bind_Ok _ _ _ _ _ H2). }
  split; [|by do 2 (etrans; [done|])].
  split; [congruence|]. split; [congruence|].
  rewrite Hd3, Hi2, Hi1, Hd2, Hd1'. destruct (is_inline ds); lia.
Qed.

Lemma tidy_put_items {A : Type} (k : N) (pr : A → action unit)
    (items : list A) (is_first_item : bool) :
  (∀ x, x ∈ items → tidy k (pr x)) →
  tidy k (put_items pr items is_first_item).
Proof.
  revert is_first_item. induction items as [|x items IH]; intros b Hpr; simpl.
  - apply tidy_ret.
  - apply tidy_seq; [apply tidy_put_cstr|].
    apply tidy_seq; [apply Hpr; by left|].
    apply IH. intros y Hy. apply Hpr. by right.
Qed.

(** X7.  A type printed through its [DebugStream] member: when what the
    member does is tidy at nesting [k], the whole output, braces included,
    is tidy at nesting [k + 1]; in particular the [BranchEnd] that closes it
    does not throw and the depth is back to what it was. *)
Theorem put_object_tidy (k : N) (hook : action unit) :
  tidy k hook → tidy (k + 1) (put_object hook).
Proof. apply tidy_bracket. Qed.

(** X8.  A pair whose two components are printed tidily at nesting [k] is
    printed tidily at nesting [k + 1]. *)
Theorem put_pair_tidy {A B : Type} (k : N) (p1 : A → action unit)
    (p2 : B → action unit) (input : A * B) :
  tidy k (p1 (fst input)) → tidy k (p2 (snd input)) →
  tidy (k + 1) (put_pair p1 p2 input).
Proof.
  intros H1 H2.
  apply (tidy_ext _ (BranchStart "("%char ;;
                     (p1 (fst input) ;; put_cstr (lit ", ") ;; p2 (snd input)) ;;
                     BranchEnd ")"%char)).
  { intros ds. unfold put_pair. apply bind_Ok_ext. intros ds1.
    by rewrite !bind_assoc. }
  apply tidy_bracket.
  apply tidy_seq; [done|]. apply tidy_seq; [apply tidy_put_cstr|done].
Qed.

(** X9.  A vector, list or set whose elements are printed tidily at nesting
    [k] is printed tidily at nesting [k + 1], in inline mode or not, empty
    or not: it never throws and the depth is back to what it was. *)
Theorem put_sequence_tidy {A : Type} (k : N) (pr : A → action unit)
    (input : list A) :
  (∀ x, x ∈ input → tidy k (pr x)) →
  tidy (k + 1) (put_sequence pr input).
Proof.
  intros Hpr. unfold put_sequence.
  destruct (length input =? 0); [apply tidy_put_cstr|].
  apply tidy_bracket. by apply tidy_put_items.
Qed.

(** ** Maps *)

Lemma tidy_separator (k : N) (is_first_item : bool) :
  tidy k (if negb is_first_item
          then put_cstr (lit ",") ;;
               inl <- get is_inline ;;
               if negb inl then put_cstr [newline] else ret tt
          else ret tt).
Proof.
  destruct is_first_item; cbn [negb]; [apply tidy_ret|].
  apply tidy_seq; [apply tidy_put_cstr|].
  intros ds Hd. unfold bind at 1. unfold get.
  destruct (is_inline ds); cbn [negb];
    [by apply (tidy_ret k)|by apply (tidy_put_cstr k)].
Qed.

(** The loop over the entries keeps depth and indentation, and leaves
    [is_inline] false as soon as there is an entry. *)
Lemma put_entries_controls {K V : Type} (k : N) (pk : K → action unit)
    (pv : V → action unit) (items : list (K * V)) (is_first_item : bool)
    (ds : DebugStream) :
  (∀ kv, kv ∈ items → tidy k (pk (fst kv)) ∧ tidy k (pv (snd kv))) →
  (depth ds + k < uint32_modulus)%N →
  ∃ ds', put_entries pk pv items is_first_item ds = Ok tt ds'
         ∧ indentation_space ds' = indentation_space ds
         ∧ depth ds' = depth ds
         ∧ is_inline ds' = match items with
                           | [] => is_inline ds
                           | _ :: _ => false
                           end
         ∧ str ds `prefix_of` str ds'.
Proof.
  revert is_first_item ds.
  induction items as [|[key val] items IH]; intros b ds Hpr Hd; simpl.
  - by exists ds.
  - destruct (Hpr (key, val)) as [Hk Hv]; [by left|]. simpl in Hk, Hv.
    destruct (tidy_separator k b ds Hd)
      as (ds1 & H1 & (Hi1 & Hn1 & Hd1) & Hp1).
    rewrite (bind_Ok _ _ _ _ _ H1).
    unfold bind at 1. unfold set_is_inline at 1.
    set (ds2 := {| str := str ds1; is_inline := true;
                   indentation_space := indentation_space ds1;
                   depth := depth ds1 |}).
    destruct (Hk ds2) as (ds3 & H3 & (Hi3 & Hn3 & Hd3) & Hp3);
      [simpl; by rewrite Hd1|].
    rewrite (bind_Ok _ _ _ _ _ H3).
    unfold bind at 1. unfold set_is_inline at 1.
    set (ds4 := {| str := str ds3; is_inline := false;
                   indentation_space := indentation_space ds3;
                   depth := depth ds3 |}).
    destruct (tidy_put_cstr k (lit ": ") ds4)
      as (ds5 & H5 & (Hi5 & Hn5 & Hd5) & Hp5);
      [simpl; rewrite Hd3; simpl; by rewrite Hd1|].
    rewrite (bind_Ok _ _ _ _ _ H5).
    destruct (Hv ds5) as (ds6 & H6 & (Hi6 & Hn6 & Hd6) & Hp6);
      [rewrite Hd5; simpl; rewrite Hd3; simpl; by rewrite Hd1|].
    rewrite (bind_Ok _ _ _ _ _ H6).
    destruct (IH false ds6) as (ds7 & H7 & Hn7 & Hd7 & Hi7 & Hp7).
    { intros kv Hkv. apply Hpr. by right. }
    { rewrite Hd6, Hd5; simpl; rewrite Hd3; simpl; by rewrite Hd1. }
    exists ds7. split; [done|].
    simpl in *.
    split; [congruence|]. split; [congruence|]. split.
    + rewrite Hi7. destruct items; [congruence|done].
    + etrans; [exact Hp1|]. etrans; [exact Hp3|]. etrans; [exact Hp5|].
      by etrans.
Qed.

(** X10.  On a stream that is not inline, a map whose keys and values are
    printed tidily at nesting [k] is printed tidily, provided the depth can
    grow by [k + 1]: the call returns, only appends, and leaves
    [is_inline], [indentation_space] and [depth] as they were. *)
Theorem put_map_tidy_when_not_inline {K V : Type} (k : N)
    (pk : K → action unit) (pv : V → action unit) (input : list (K * V))
    (ds : DebugStream) :
  (∀ kv, kv ∈ input → tidy k (pk (fst kv)) ∧ tidy k (pv (snd kv))) →
  is_inline ds = false →
  (depth ds + (k + 1) < uint32_modulus)%N →
  ∃ ds', put_map pk pv input ds = Ok tt ds'
         ∧ same_controls ds ds'
         ∧ str ds `prefix_of` str ds'.
Proof.
  intros Hpr Hi Hd. unfold put_map.
  destruct input as [|kv input]; cbn [length Nat.eqb].
  { apply (tidy_put_cstr 0 (lit "{}")). lia. }
  destruct (BranchStart_controls "{"%char ds)
    as (ds1 & H1 & Hi1 & Hn1 & Hd1 & Hp1).
  rewrite Hi in Hd1. rewrite N.mod_small in Hd1 by lia.
  destruct (put_entries_controls k pk pv (kv :: input) true ds1 Hpr)
    as (ds2 & H2 & Hn2 & Hd2 & Hi2 & Hp2); [rewrite Hd1; lia|].
  destruct (BranchEnd_controls "}"%char ds2)
    as (ds3 & H3 & Hi3 & Hn3 & Hd3 & Hp3); [right; rewrite Hd2, Hd1; lia|].
  exists ds3. split.
  { rewrite (bind_Ok _ _ _ _ _ H1). by rewrite (bind_Ok _ _ _ _ _ H2). }
  split; [|by do 2 (etrans; [done|])].
  split; [congruence|]. split; [congruence|].
  rewrite Hd3, Hi2, Hd2, Hd1. lia.
Qed.

(** X11.  On a stream that is inline, printing a map that is not empty
    does not put things back: the loop leaves [is_inline] false, so the
    closing [BranchEnd] runs as for a block that the opening [BranchStart]
    never entered.  At depth 0 the call throws the [BranchEnd] error; at
    another depth it returns with [is_inline] false and the depth one
    less than before. *)
Theorem put_map_inline_unbalanced {K V : Type} (k : N)
    (pk : K → action unit) (pv : V → action unit) (input : list (K * V))
    (ds : DebugStream) :
  (∀ kv, kv ∈ input → tidy k (pk (fst kv)) ∧ tidy k (pv (snd kv))) →
  input ≠ [] →
  is_inline ds = true →
  (depth ds + k < uint32_modulus)%N →
  (depth ds = 0%N →
   ∃ ds', put_map pk pv input ds = Raise invalid_branch_end ds')
  ∧ (depth ds ≠ 0%N →
     ∃ ds', put_map pk pv input ds = Ok tt ds'
            ∧ is_inline ds' = false
            ∧ depth ds' = (depth ds - 1)%N).
Proof.
  intros Hpr Hne Hi Hd. unfold put_map.
  destruct input as [|kv input]; [done|]. cbn [length Nat.eqb].
  destruct (BranchStart_controls "{"%char ds)
    as (ds1 & H1 & Hi1 & Hn1 & Hd1 & Hp1).
  rewrite Hi in Hd1.
  destruct (put_entries_controls k pk pv (kv :: input) true ds1 Hpr)
    as (ds2 & H2 & Hn2 & Hd2 & Hi2 & Hp2); [by rewrite Hd1|].
  rewrite (bind_Ok _ _ _ _ _ H1), (bind_Ok _ _ _ _ _ H2).
  split.
  - intros Hz. eexists. apply BranchEnd_underflow; [done|congruence].
  - intros Hnz.
    destruct (BranchEnd_controls "}"%char ds2)
      as (ds3 & H3 & Hi3 & Hn3 & Hd3 & Hp3); [right; congruence|].
    exists ds3. split; [done|]. split; [congruence|].
    rewrite Hd3, Hi2. congruence.
Qed.

(** ** What a sequence of numbers looks like *)

(** The texts of [l] with [sep] between them. *)
Definition join (sep : text) (l : list text) : text :=
  match l with
  | [] => []
  | x :: rest => x ++ concat (map (λ y, sep ++ y) rest)
  end.

Lemma put_cstr_plain (s : text) (ds : DebugStream) :
  NUL ∉ s → newline ∉ s → put_cstr s ds = Ok tt (appended ds s).
Proof.
  intros H0 Hn.
  by rewrite put_cstr_eq, c_str_no_NUL, put_string_eq, indented_no_newline.
Qed.

Lemma put_cstr_comma (ds : DebugStream) :
  put_cstr (lit ", ") ds = Ok tt (appended ds (lit ", ")).
Proof. by rewrite put_cstr_eq, put_string_eq. Qed.

Lemma put_items_fundamental_rest {T : Type} (format : T → text)
    (items : list T) (ds : DebugStream) :
  put_items (put_fundamental format) items false ds =
  Ok tt (appended ds (concat (map (λ y, lit ", " ++ y) (map format items)))).
Proof.
  revert ds. induction items as [|x items IH]; intros ds.
  - simpl. unfold ret. by rewrite appended_nil.
  - cbn [put_items]. rewrite (bind_Ok _ _ _ _ _ (put_cstr_comma ds)).
    unfold put_fundamental at 1.
    rewrite (bind_Ok _ _ _ _ _ (write_eq _ _)), IH, !appended_appended.
    unfold appended; simpl. by rewrite <- ?app_assoc.
Qed.

Lemma put_items_fundamental_first {T : Type} (format : T → text)
    (items : list T) (ds : DebugStream) :
  put_items (put_fundamental format) items true ds =
  Ok tt (appended ds (join (lit ", ") (map format items))).
Proof.
  destruct items as [|x items].
  - simpl. unfold ret. by rewrite appended_nil.
  - cbn [put_items]. unfold bind at 1. cbn [lit String.list_ascii_of_string put_cstr].
    unfold ret at 1. unfold put_fundamental at 1.
    rewrite (bind_Ok _ _ _ _ _ (write_eq _ _)), put_items_fundamental_rest.
    by rewrite appended_appended.
Qed.

(** X12.  A sequence of values of a fundamental type other than [char],
    that is, of values printed by the overload for fundamental types ([char]
    has [operator<<(char)], which pads after a newline, and is not covered).
    Empty, it is printed as [[]] in either mode.  Otherwise, inline, it is an opening bracket,
    the formatted values separated by a comma and a space, and a closing
    bracket.  Not inline, with room for one more level of depth, the values
    are on one line of their own, indented by
    [(depth + 1) * indentation_space] spaces, and the closing bracket is on
    the next line, indented by [depth * indentation_space] spaces; nothing
    but the characters of the stream has changed. *)
Theorem put_sequence_fundamental_layout {T : Type} (format : T → text)
    (input : list T) (ds : DebugStream) :
  input ≠ [] →
  put_sequence (put_fundamental format) [] ds = Ok tt (appended ds (lit "[]"))
  ∧ (is_inline ds = true →
     put_sequence (put_fundamental format) input ds =
     Ok tt (appended ds ("["%char :: join (lit ", ") (map format input)
                         ++ ["]"%char])))
  ∧ (is_inline ds = false → (depth ds + 1 < uint32_modulus)%N →
     put_sequence (put_fundamental format) input ds =
     Ok tt (appended ds
              ("["%char :: newline
               :: pad_at (depth ds + 1) (indentation_space ds)
               ++ join (lit ", ") (map format input)
               ++ newline :: pad_at (depth ds) (indentation_space ds)
               ++ ["]"%char]))).
Proof.
  intros Hne. split; [|split].
  - unfold put_sequence. cbn [length Nat.eqb].
    by rewrite put_cstr_eq, put_string_eq.
  - intros Hi. unfold put_sequence.
    destruct input as [|x input]; [done|]. cbn [length Nat.eqb].
    assert (Hs : BranchStart "["%char ds = Ok tt (appended ds ["["%char]))
      by (by rewrite BranchStart_inline, put_char_eq).
    rewrite (bind_Ok _ _ _ _ _ Hs).
    rewrite (bind_Ok _ _ _ _ _ (put_items_fundamental_first _ _ _)).
    rewrite BranchEnd_inline, put_char_eq by done.
    by rewrite !appended_appended.
  - intros Hi Hd. unfold put_sequence.
    destruct input as [|x input]; [done|]. cbn [length Nat.eqb].
    rewrite (bind_Ok _ _ _ _ _ (BranchStart_block _ _ Hi)).
    rewrite (bind_Ok _ _ _ _ _ (put_items_fundamental_first _ _ _)).
    rewrite BranchEnd_block; [|done|simpl; rewrite N.mod_small; lia].
    destruct ds as [s i ind d]; simpl in *.
    rewrite N.mod_small by lia.
    replace (d + 1 - 1)%N with d by lia.
    unfold appended, with_depth; simpl. do 2 f_equal.
    rewrite <- !app_assoc. reflexivity.
Qed.

(** X13.  A scoped control puts the member back.  A block that starts by
    declaring the object returned by [SetInlineForThisScope(value)] runs
    with [is_inline] equal to [value], and when the block is left, by its
    end or by an exception, [is_inline] is what it was before the block,
    whatever the block did to it; a block that does nothing else leaves the
    stream as it was.  The same holds for
    [SetIndentationForThisScope]. *)
Theorem scoped_control_restores {A : Type} (body : action A) (flag : bool)
    (width : N) (ds : DebugStream) :
  in_scope (SetInlineForThisScope flag) (get is_inline) ds = Ok flag ds
  ∧ in_scope (SetIndentationForThisScope width) (get indentation_space) ds
    = Ok width ds
  ∧ (∀ a ds', in_scope (SetInlineForThisScope flag) body ds = Ok a ds' →
              is_inline ds' = is_inline ds)
  ∧ (∀ what ds', in_scope (SetInlineForThisScope flag) body ds
                 = Raise what ds' →
                 is_inline ds' = is_inline ds)
  ∧ (∀ a ds', in_scope (SetIndentationForThisScope width) body ds
              = Ok a ds' →
              indentation_space ds' = indentation_space ds)
  ∧ (∀ what ds', in_scope (SetIndentationForThisScope width) body ds
                 = Raise what ds' →
                 indentation_space ds' = indentation_space ds).
Proof.
  destruct ds as [s i ind d].
  split; [done|]. split; [done|].
  unfold in_scope, SetInlineForThisScope, SetIndentationForThisScope; simpl.
  repeat split.
  - intros a ds'. destruct (body _); by intros [= <- <-].
  - intros what ds'. destruct (body _); by intros [= <- <-].
  - intros a ds'. destruct (body _); by intros [= <- <-].
  - intros what ds'. destruct (body _); by intros [= <- <-].
Qed.

(** ** Instances *)

(** One decimal digit, as the standard stream writes a small number. *)
Definition digit (n : N) : text := [ascii_of_N (48 + n)].

(** A stream in inline mode, otherwise as default-constructed. *)
Definition inline_stream : DebugStream :=
  {| str := []; is_inline := true; indentation_space := 2; depth := 0 |}.

Ltac absent :=
  let H := fresh in
  intros H;
  repeat (apply elem_of_cons in H as [H|H]; [discriminate H|]);
  by apply elem_of_nil in H.

Lemma put_string_verbatim_witness :
  put_string (lit "a=b") DebugStream_default
  = Ok tt (appended DebugStream_default (lit "a=b")).
Proof. apply put_string_verbatim. simpl. absent. Defined.

Lemma put_cstr_stops_at_NUL_witness :
  put_cstr (lit "ab") DebugStream_default
  = put_string (lit "ab") DebugStream_default
  ∧ put_cstr (lit "ab" ++ NUL :: lit "cd") DebugStream_default
    = put_string (lit "ab") DebugStream_default
  ∧ put_string (lit "ab" ++ NUL :: lit "cd") DebugStream_default
    = (put_string (lit "ab") ;; write [NUL] ;; put_string (lit "cd"))
        DebugStream_default.
Proof. apply put_cstr_stops_at_NUL. simpl. absent. Defined.

Lemma put_object_tidy_witness :
  tidy (0 + 1) (put_object (put_string (lit "id: 7"))).
Proof. apply put_object_tidy. apply tidy_put_string. Defined.

Lemma put_pair_tidy_witness :
  tidy (0 + 1) (put_pair (put_fundamental digit) put_string (1%N, lit "one")).
Proof.
  apply put_pair_tidy; [apply tidy_put_fundamental|apply tidy_put_string].
Defined.

Lemma put_sequence_tidy_witness :
  tidy (0 + 1) (put_sequence (put_fundamental digit) [1; 2; 3]%N).
Proof.
  apply put_sequence_tidy. intros x _. apply tidy_put_fundamental.
Defined.

Lemma put_map_tidy_when_not_inline_witness :
  ∃ ds', put_map (put_fundamental digit) put_string
           [(1%N, lit "one"); (2%N, lit "two")] DebugStream_default
         = Ok tt ds'
         ∧ same_controls DebugStream_default ds'
         ∧ str DebugStream_default `prefix_of` str ds'.
Proof.
  apply (put_map_tidy_when_not_inline 0).
  - intros kv _. split; [apply tidy_put_fundamental|apply tidy_put_string].
  - reflexivity.
  - reflexivity.
Defined.

Lemma put_map_inline_unbalanced_witness :
  ∃ ds', put_map (put_fundamental digit) put_string
           [(1%N, lit "one"); (2%N, lit "two")] inline_stream
         = Raise invalid_branch_end ds'.
Proof.
  apply (put_map_inline_unbalanced 0 (put_fundamental digit) put_string
           [(1%N, lit "one"); (2%N, lit "two")] inline_stream).
  - intros kv _. split; [apply tidy_put_fundamental|apply tidy_put_string].
  - discriminate.
  - reflexivity.
  - reflexivity.
  - reflexivity.
Defined.

Lemma put_sequence_fundamental_layout_witness :
  put_sequence (put_fundamental digit) [1; 2; 3]%N inline_stream
  = Ok tt (appended inline_stream (lit "[1, 2, 3]"))
  ∧ put_sequence (put_fundamental digit) [1; 2; 3]%N DebugStream_default
    = Ok tt (appended DebugStream_default
               (lit "[" ++ newline :: lit "  1, 2, 3" ++ newline :: lit "]")).
Proof.
  destruct (put_sequence_fundamental_layout digit [1; 2; 3]%N inline_stream)
    as (_ & Hinline & _); [discriminate|].
  destruct (put_sequence_fundamental_layout digit [1; 2; 3]%N
              DebugStream_default) as (_ & _ & Hblock); [discriminate|].
  split; [exact (Hinline eq_refl)|exact (Hblock eq_refl eq_refl)].
Defined.

End debug_stream.
